(** * onion-tasks: the entity model and the use-case layer

    A shallow embedding of [core/entities/entities.py], [use_cases/dtos.py],
    [use_cases/interfaces.py] and [use_cases/use_cases.py].

    Python objects with identity (tasks) live in an explicit store indexed by
    references; a task's dependency set is a finite set of references, as
    [Task] defines neither [__eq__] nor [__hash__].  Python integers are
    unbounded, hence [Z].  Exceptions are values of an error monad. *)

From Stdlib Require Import ZArith String Ascii Lia.
From stdpp Require Import base decidable countable list sets gmap fin_maps fin_sets strings pretty.

Set Warnings "-register-all,-clear-no-such-hyp".

Local Open Scope string_scope.

(** ** Python values crossing the use-case boundary *)

(** The dynamically typed values a repository may hand back.  A dict has
    string keys and is the list of its bindings in insertion order (a lookup
    takes the first binding of a key).  [VObj] stands for any object that is
    neither subscriptable, iterable nor ordered against an [int] (an ORM
    model instance, for example).  Floats and booleans are not modelled. *)
Inductive pyval : Type :=
| VNone
| VInt (z : Z)
| VStr (s : string)
| VList (l : list pyval)
| VDict (d : list (string * pyval))
| VObj (tag : string).

(** Exceptions.  The classes are those the source raises or names, the
    ones Python raises in the operations used here, and three that derive
    from [BaseException] without deriving from [Exception]: [SystemExit],
    [KeyboardInterrupt] and [asyncio.CancelledError], which a repository can
    raise and [except Exception] lets through.  The messages the interpreter
    itself words are abridged. *)
Inductive exn_class : Type :=
| ValueErrorC
| KeyErrorC
| TypeErrorC
| AttributeErrorC
| NotImplementedErrorC
| ExceptionC
| SystemExitC
| KeyboardInterruptC
| CancelledErrorC
| BaseExceptionC.

#[global] Instance exn_class_eq_dec : EqDecision exn_class.
Proof. solve_decision. Defined.

(** An exception object: its class, and what [str(e)] does with it, which is
    to return a text or, when the object's [__str__] is broken, to raise in
    its turn. *)
Inductive exn : Type :=
| mkExn (cls : exn_class) (msg : string)
| mkExnStrRaises (cls : exn_class) (raised : exn).

Definition exn_cls (e : exn) : exn_class :=
  match e with
  | mkExn cls _ | mkExnStrRaises cls _ => cls
  end.

(** The class derives from [Exception]. *)
Definition derives_from_Exception (c : exn_class) : bool :=
  match c with
  | SystemExitC | KeyboardInterruptC | CancelledErrorC | BaseExceptionC =>
      false
  | _ => true
  end.

(** [isinstance(e, c)], as an [except c] clause tests it: the class itself,
    [Exception] for the classes deriving from it, [BaseException] for
    all. *)
Definition isinstance (e : exn) (c : exn_class) : bool :=
  bool_decide (exn_cls e = c)
  || (bool_decide (c = ExceptionC) && derives_from_Exception (exn_cls e))
  || bool_decide (c = BaseExceptionC).

(** The outcome of evaluating an expression: a value, or a raised
    exception. *)
Inductive result (A : Type) : Type :=
| Val (a : A)
| Exc (e : exn).
Arguments Val {A} a.
Arguments Exc {A} e.

Definition result_bind {A B : Type} (r : result A) (k : A → result B)
  : result B :=
  match r with
  | Val a => k a
  | Exc e => Exc e
  end.

(** [str(e)], which the f-strings of the handlers call. *)
Definition py_str (e : exn) : result string :=
  match e with
  | mkExn _ msg => Val msg
  | mkExnStrRaises _ raised => Exc raised
  end.

(** [[f(x) for x in l]]: the first element on which [f] raises ends the
    comprehension. *)
Fixpoint comprehension {A B : Type} (f : A → result B) (l : list A)
  : result (list B) :=
  match l with
  | [] => Val []
  | x :: l' =>
      result_bind (f x) (λ y,
      result_bind (comprehension f l') (λ ys, Val (y :: ys)))
  end.

(** [repr] of a string key, as [str(KeyError(key))] shows it (for keys
    without quotes or escapes). *)
Definition py_repr_str (s : string) : string := "'" ++ s ++ "'".

Fixpoint dict_lookup (key : string) (d : list (string * pyval))
  : option pyval :=
  match d with
  | [] => None
  | (k, v) :: d' => if String.eqb k key then Some v else dict_lookup key d'
  end.

(** [v[key]] for a string key. *)
Definition py_getitem (v : pyval) (key : string) : result pyval :=
  match v with
  | VDict d =>
      match dict_lookup key d with
      | Some x => Val x
      | None => Exc (mkExn KeyErrorC (py_repr_str key))
      end
  | VStr _ => Exc (mkExn TypeErrorC "string indices must be integers, not 'str'")
  | VList _ =>
      Exc (mkExn TypeErrorC "list indices must be integers or slices, not str")
  | VNone | VInt _ | VObj _ =>
      Exc (mkExn TypeErrorC "object is not subscriptable")
  end.

(** [v.get(key, default)]. *)
Definition py_get (v : pyval) (key : string) (default : pyval)
  : result pyval :=
  match v with
  | VDict d =>
      match dict_lookup key d with
      | Some x => Val x
      | None => Val default
      end
  | _ => Exc (mkExn AttributeErrorC "object has no attribute 'get'")
  end.

(** The elements [for x in v] runs over: the items of a list, the keys of a
    dict, the one-character strings of a string. *)
Definition py_iter (v : pyval) : result (list pyval) :=
  match v with
  | VList l => Val l
  | VDict d => Val (map (λ kv, VStr (fst kv)) d)
  | VStr s =>
      Val (map (λ c, VStr (String c EmptyString)) (list_ascii_of_string s))
  | VNone | VInt _ | VObj _ => Exc (mkExn TypeErrorC "object is not iterable")
  end.

(** [d[key] = v] on the bindings of a dict: an existing key keeps its
    place, a new one goes last. *)
Fixpoint dict_set (key : string) (v : pyval) (d : list (string * pyval))
  : list (string * pyval) :=
  match d with
  | [] => [(key, v)]
  | (k, x) :: d' =>
      if String.eqb k key then (k, v) :: d' else (k, x) :: dict_set key v d'
  end.

(** [o[key] = v]. *)
Definition py_setitem (o : pyval) (key : string) (v : pyval)
  : result pyval :=
  match o with
  | VDict d => Val (VDict (dict_set key v d))
  | _ => Exc (mkExn TypeErrorC "object does not support item assignment")
  end.

(** [sub in s] on strings. *)
Fixpoint str_contains (sub s : string) : bool :=
  String.prefix sub s
  || match s with
     | EmptyString => false
     | String _ s' => str_contains sub s'
     end.

(** ** core/entities/entities.py *)

Module Entities.

Inductive Status : Type := TODO | IN_PROGRESS | DONE.

Inductive Tag : Type := HIGH_PRIORITY | MEDIUM_PRIORITY | LOW_PRIORITY.

#[global] Instance Status_eq_dec : EqDecision Status.
Proof. solve_decision. Defined.

#[global] Instance Tag_eq_dec : EqDecision Tag.
Proof. solve_decision. Defined.

Definition Status_to_nat (s : Status) : nat :=
  match s with TODO => 0 | IN_PROGRESS => 1 | DONE => 2 end.

Definition Status_of_nat (n : nat) : option Status :=
  match n with
  | 0 => Some TODO
  | 1 => Some IN_PROGRESS
  | 2 => Some DONE
  | _ => None
  end.

#[global] Instance Status_countable : Countable Status.
Proof.
  refine (inj_countable Status_to_nat Status_of_nat _).
  intros []; reflexivity.
Defined.

(** [Status.X.name] and [Tag.X.name]. *)
Definition Status_name (s : Status) : string :=
  match s with
  | TODO => "TODO"
  | IN_PROGRESS => "IN_PROGRESS"
  | DONE => "DONE"
  end.

Definition Tag_name (t : Tag) : string :=
  match t with
  | HIGH_PRIORITY => "HIGH_PRIORITY"
  | MEDIUM_PRIORITY => "MEDIUM_PRIORITY"
  | LOW_PRIORITY => "LOW_PRIORITY"
  end.

(** [Status[name]] and [Tag[name]]: lookup of a member by name; [None] is
    Python's [KeyError]. *)
Definition Status_lookup (name : string) : option Status :=
  if String.eqb name "TODO" then Some TODO
  else if String.eqb name "IN_PROGRESS" then Some IN_PROGRESS
  else if String.eqb name "DONE" then Some DONE
  else None.

Definition Tag_lookup (name : string) : option Tag :=
  if String.eqb name "HIGH_PRIORITY" then Some HIGH_PRIORITY
  else if String.eqb name "MEDIUM_PRIORITY" then Some MEDIUM_PRIORITY
  else if String.eqb name "LOW_PRIORITY" then Some LOW_PRIORITY
  else None.

Record Agent : Type := mkAgent { agent_id : pyval; agent_name : pyval }.

Record Project : Type := mkProject { project_id : pyval; project_name : pyval }.

(** A reference to a task object. *)
Definition ref : Type := nat.

(** The attributes [Task.__init__] sets.  Python checks no annotation, so
    [task_id], [title] and [description] hold whatever the caller passed;
    [cost] is an integer once the constructor's comparison went through. *)
Record Task : Type := mkTask {
  task_id : pyval;
  title : pyval;
  description : pyval;
  cost : Z;
  status : Status;
  tags : list Tag;
  dependencies : gset ref;
  project : option Project;
  assignee : option Agent
}.

Definition set_status (s : Status) (t : Task) : Task :=
  mkTask (task_id t) (title t) (description t) (cost t) s (tags t)
         (dependencies t) (project t) (assignee t).

Definition set_dependencies (d : gset ref) (t : Task) : Task :=
  mkTask (task_id t) (title t) (description t) (cost t) (status t) (tags t)
         d (project t) (assignee t).

Definition set_project_field (p : option Project) (t : Task) : Task :=
  mkTask (task_id t) (title t) (description t) (cost t) (status t) (tags t)
         (dependencies t) p (assignee t).

Definition set_assignee (a : option Agent) (t : Task) : Task :=
  mkTask (task_id t) (title t) (description t) (cost t) (status t) (tags t)
         (dependencies t) (project t) a.

(** [Task.__init__]: the attributes are set, then the cost is checked.  The
    parameter defaults ([description], [cost], [status], [tags]) are the
    caller's to pass. *)
Definition Task_init (task_id title description cost : pyval)
  (status : Status) (tags : list Tag) : result Task :=
  match cost with
  | VInt c =>
      if (c <? 1)%Z then Exc (mkExn ValueErrorC "Cost must be at least 1")
      else Val (mkTask task_id title description c status tags ∅ None None)
  | _ =>
      Exc (mkExn TypeErrorC "'<' not supported between these instances")
  end.

(** [Tag[v]] and [Status[v]] on an arbitrary value: a string is looked up
    among the member names, a list or dict is unhashable, anything else is
    no member name. *)
Definition Tag_getitem (v : pyval) : result Tag :=
  match v with
  | VStr s =>
      match Tag_lookup s with
      | Some t => Val t
      | None => Exc (mkExn KeyErrorC (py_repr_str s))
      end
  | VList _ | VDict _ => Exc (mkExn TypeErrorC "unhashable type")
  | VNone | VInt _ | VObj _ => Exc (mkExn KeyErrorC "not a member name")
  end.

Definition Status_getitem (v : pyval) : result Status :=
  match v with
  | VStr s =>
      match Status_lookup s with
      | Some t => Val t
      | None => Exc (mkExn KeyErrorC (py_repr_str s))
      end
  | VList _ | VDict _ => Exc (mkExn TypeErrorC "unhashable type")
  | VNone | VInt _ | VObj _ => Exc (mkExn KeyErrorC "not a member name")
  end.

(** The store of task objects.  Abbreviation, not a definition, so that the
    map lemmas rewrite through it. *)
Abbreviation heap := (gmap ref Task).

(** [r.dependencies] and [r.status] read through the store. *)
Definition deps_of (h : heap) (r : ref) : gset ref :=
  match h !! r with
  | Some t => dependencies t
  | None => ∅
  end.

Definition status_of (h : heap) (r : ref) : option Status :=
  status <$> h !! r.

(** *** Task methods *)

(** [Task.can_start]. *)
Definition can_start (h : heap) (self : ref) : bool :=
  match h !! self with
  | Some t =>
      bool_decide (assignee t ≠ None)
      && (bool_decide (dependencies t = ∅)
          || forallb (λ dep, bool_decide (status_of h dep = Some DONE))
                     (elements (dependencies t)))
  | None => false
  end.

(** [Task.start_task]: the returned flag and the store after the call. *)
Definition start_task (h : heap) (self : ref) : bool * heap :=
  if can_start h self then (true, alter (set_status IN_PROGRESS) self h)
  else (false, h).

(** [Task.can_complete]. *)
Definition can_complete (h : heap) (self : ref) : bool :=
  bool_decide (status_of h self = Some IN_PROGRESS).

(** [Task.complete_task]. *)
Definition complete_task (h : heap) (self : ref) : bool * heap :=
  if can_complete h self then (true, alter (set_status DONE) self h)
  else (false, h).

(** [Task.set_project] and [Task.assign]. *)
Definition set_project (h : heap) (self : ref) (p : Project) : heap :=
  alter (set_project_field (Some p)) self h.

Definition assign (h : heap) (self : ref) (a : Agent) : heap :=
  alter (set_assignee (Some a)) self h.

(** *** validate_dependencies *)

(** [list.pop()]: the list without its last element, and that element. *)
Fixpoint list_pop {A : Type} (l : list A) : option (list A * A) :=
  match l with
  | [] => None
  | x :: l' =>
      match list_pop l' with
      | None => Some ([], x)
      | Some (r, y) => Some (x :: r, y)
      end
  end.

(** One pass through the body of [while stack:], from the loop test to the
    end of the body.  Python iterates a set in an order of its own;
    [elements] fixes one, and the verdict is shown below not to depend on
    it. *)
Inductive loop_outcome : Type :=
| Return (b : bool)
| Continue (seen : gset ref) (stack : list ref).

Definition loop_body (h : heap) (seen : gset ref) (stack : list ref)
  : loop_outcome :=
  match list_pop stack with
  | None => Return true
  | Some (stack', current) =>
      if decide (current ∈ seen) then Return false
      else Continue ({[current]} ∪ seen)
                    (stack' ++ elements (deps_of h current))
  end.

(** The loop, bounded by [fuel] passes.  Besides the verdict it counts the
    passes that went through the whole body (those that added a node to
    [seen]). *)
Fixpoint while_loop (fuel : nat) (h : heap) (seen : gset ref)
  (stack : list ref) : option (bool * nat) :=
  match fuel with
  | O => None
  | S fuel' =>
      match loop_body h seen stack with
      | Return b => Some (b, O)
      | Continue seen' stack' =>
          match while_loop fuel' h seen' stack' with
          | Some (b, n) => Some (b, S n)
          | None => None
          end
      end
  end.

(** Every reference the traversal from [task] can ever hold. *)
Definition universe (h : heap) (task : ref) : gset ref :=
  {[task]} ∪ map_fold (λ _ t acc, dependencies t ∪ acc) ∅ h.

(** [validate_dependencies(task)]: [seen = set()], [stack = [task]], then the
    loop.  The fuel is enough for every store ([while_loop_enough_fuel]
    below), so the last branch is never taken. *)
Definition validate_dependencies (h : heap) (task : ref) : bool :=
  match while_loop (S (size (universe h task))) h ∅ [task] with
  | Some (b, _) => b
  | None => false
  end.

(** [self.dependencies.add(task)] and [self.dependencies.remove(task)]. *)
Definition dependencies_add (h : heap) (self task : ref) : heap :=
  alter (λ t, set_dependencies ({[task]} ∪ dependencies t) t) self h.

Definition dependencies_remove (h : heap) (self task : ref) : heap :=
  alter (λ t, set_dependencies (dependencies t ∖ {[task]}) t) self h.

(** [Task.add_dependency].  [set.remove] raises on an absent element; here
    it finds [task], which was just added. *)
Definition add_dependency (h : heap) (self task : ref) : heap :=
  let h1 := dependencies_add h self task in
  if validate_dependencies h1 self then h1
  else dependencies_remove h1 self task.

(** The methods of [Task] that a caller can invoke on a stored task. *)
Inductive entity_op : Type :=
| OpAddDependency (self task : ref)
| OpCanStart (self : ref)
| OpStartTask (self : ref)
| OpCanComplete (self : ref)
| OpCompleteTask (self : ref)
| OpSetProject (self : ref) (p : Project)
| OpAssign (self : ref) (a : Agent).

Definition exec_op (h : heap) (op : entity_op) : heap :=
  match op with
  | OpAddDependency self task => add_dependency h self task
  | OpCanStart _ => h
  | OpStartTask self => snd (start_task h self)
  | OpCanComplete _ => h
  | OpCompleteTask self => snd (complete_task h self)
  | OpSetProject self p => set_project h self p
  | OpAssign self a => assign h self a
  end.

Definition exec_ops (h : heap) (ops : list entity_op) : heap :=
  fold_left exec_op ops h.

(** *** get_makespan_boundaries and track_statuses *)

(** [sum(iterable)] and [max(iterable)] over integers; [max] of nothing
    raises, which [None] stands for. *)
Definition py_sum (l : list Z) : Z := fold_left Z.add l 0%Z.

Definition py_max (l : list Z) : option Z :=
  match l with
  | [] => None
  | x :: l' => Some (fold_left Z.max l' x)
  end.

Definition get_makespan_boundaries (tasks : list Task) : option (Z * Z) :=
  match tasks with
  | [] => Some (0%Z, 0%Z)
  | _ =>
      let max_makespan := py_sum (map cost tasks) in
      match py_max (map cost tasks) with
      | Some min_makespan => Some (min_makespan, max_makespan)
      | None => None
      end
  end.

(** [Counter(iterable)]: each element bumps its own count, starting from an
    absent entry. *)
Definition Counter_bump (c : gmap Status nat) (s : Status)
  : gmap Status nat :=
  <[s := S (default 0 (c !! s))]> c.

Definition Counter (l : list Status) : gmap Status nat :=
  fold_left Counter_bump l ∅.

Definition track_statuses (tasks : list Task) : gmap Status nat :=
  Counter (map status tasks).

End Entities.

Import Entities.

(** ** use_cases/dtos.py *)

Module Dtos.

Inductive Result : Type :=
| Success (value : pyval)
| Failure (error : string).

End Dtos.

Import Dtos.

(** ** use_cases/interfaces.py and use_cases/use_cases.py *)

Module UseCases.

Section WithWorld.

(** Whatever the repositories keep behind their methods. *)
Context {W : Type}.

(** A computation that may call repositories: it reads and writes the world
    and ends in a value or a raised exception. *)
Definition M (A : Type) : Type := W → result A * W.

Definition ret {A : Type} (a : A) : M A := λ w, (Val a, w).

Definition raise {A : Type} (e : exn) : M A := λ w, (Exc e, w).

Definition bind {A B : Type} (m : M A) (k : A → M B) : M B :=
  λ w,
    match m w with
    | (Val a, w') => k a w'
    | (Exc e, w') => (Exc e, w')
    end.

Definition lift {A : Type} (r : result A) : M A := λ w, (r, w).

(** The [except] clauses of a [try], tried in order; an exception no clause
    matches propagates. *)
Fixpoint handle {A : Type} (clauses : list (exn_class * (exn → M A)))
  (e : exn) : M A :=
  match clauses with
  | [] => raise e
  | (c, k) :: rest => if isinstance e c then k e else handle rest e
  end.

Definition try_except {A : Type} (body : M A)
  (clauses : list (exn_class * (exn → M A))) : M A :=
  λ w,
    match body w with
    | (Val a, w') => (Val a, w')
    | (Exc e, w') => handle clauses e w'
    end.

(** The repository capability of [interfaces.py].  [add(record)] returns
    nothing and may change the record it was given in place: [repo_add]
    yields the record as the call left it.  [get] yields the stored value,
    [VNone] when there is none.  Either may raise. *)
Record Repository : Type := mkRepository {
  repo_add : pyval → M pyval;
  repo_get : string → M pyval;
  repo_list : M (list pyval)
}.

End WithWorld.

Arguments M : clear implicits.
Arguments Repository : clear implicits.

Declare Scope usecase_scope.
Delimit Scope usecase_scope with usecase.
Notation "'let*' x ':=' m 'in' k" := (bind m (λ x, k))
  (at level 10, x name, m at level 100, k at level 200) : usecase_scope.

Local Open Scope usecase_scope.

Definition is_None (v : pyval) : bool :=
  match v with VNone => true | _ => false end.

Section UseCaseFunctions.

Context {W : Type}.

(** Where control is after a [try] statement whose handlers [return]: at
    the next statement, or out of the function with its result. *)
Inductive flow (A : Type) : Type :=
| Next (a : A)
| Returned (r : Result).
Arguments Next {A} a.
Arguments Returned {A} r.

Definition create_task (repository : Repository W)
  (title description : pyval) (cost : Z) (tags : list string)
  : M W Result :=
  let* constructed :=
    try_except
      (let* task :=
         lift
           (result_bind (comprehension Tag_getitem (map VStr tags)) (λ tags',
            Task_init VNone title description (VInt cost) TODO tags')) in
       ret (Next task))
      [ (ValueErrorC, λ e,
          let* text := lift (py_str e) in
          ret (Returned (Failure ("Enterprise rule violation: " ++ text))));
        (ExceptionC, λ e,
          let* text := lift (py_str e) in
          ret (Returned (Failure ("Unexpected enterprise error: " ++ text)))) ] in
  match constructed with
  | Returned r => ret r
  | Next task =>
      let task_dict :=
        VDict [ ("title", Entities.title task);
                ("description", Entities.description task);
                ("cost", VInt (Entities.cost task));
                ("tags",
                 VList (map (λ t, VStr (Tag_name t)) (Entities.tags task)));
                ("status", VStr (Status_name (Entities.status task))) ] in
      let* added :=
        try_except
          (let* task_dict' := repo_add repository task_dict in
           ret (Next task_dict'))
          [ (ExceptionC, λ e,
              let* text := lift (py_str e) in
              ret (Returned (Failure ("Unexpected adapter error: " ++ text)))) ] in
      match added with
      | Returned r => ret r
      | Next task_dict' => ret (Success task_dict')
      end
  end.

Definition create_agent (repository : Repository W) (name : pyval)
  : M W Result :=
  let* constructed :=
    try_except
      (ret (Next (mkAgent (VStr "") name)))
      [ (ExceptionC, λ e,
          let* text := lift (py_str e) in
          ret (Returned (Failure ("Unexpected enterprise error: " ++ text)))) ] in
  match constructed with
  | Returned r => ret r
  | Next agent =>
      let agent_dict := VDict [ ("name", agent_name agent) ] in
      let* added :=
        try_except
          (let* agent_dict' := repo_add repository agent_dict in
           ret (Next agent_dict'))
          [ (ExceptionC, λ e,
              let* text := lift (py_str e) in
              ret (Returned (Failure ("Unexpected adapter error: " ++ text)))) ] in
      match added with
      | Returned r => ret r
      | Next agent_dict' => ret (Success agent_dict')
      end
  end.

Definition get_task (repository : Repository W) (task_id : string)
  : M W Result :=
  try_except
    (let* task := repo_get repository task_id in
     if is_None task then ret (Failure "Task not found")
     else ret (Success task))
    [ (ExceptionC, λ e,
        let* text := lift (py_str e) in
        ret (Failure ("Unexpected adapter error: " ++ text))) ].

Definition get_agent (repository : Repository W) (agent_id : string)
  : M W Result :=
  try_except
    (let* agent := repo_get repository agent_id in
     if is_None agent then ret (Failure "Agent not found")
     else ret (Success agent))
    [ (ExceptionC, λ e,
        let* text := lift (py_str e) in
        ret (Failure ("Unexpected adapter error: " ++ text))) ].

Definition assign_task (task_repo agent_repo : Repository W)
  (task_id agent_id : string) : M W Result :=
  try_except
    (let* task := repo_get task_repo task_id in
     if is_None task then ret (Failure "Task not found")
     else
       let* agent := repo_get agent_repo agent_id in
       if is_None agent then ret (Failure "Agent not found")
       else
         let* title := lift (py_getitem task "title") in
         let* description := lift (py_get task "description" (VStr "")) in
         let* cost := lift (py_get task "cost" (VInt 1)) in
         let* tag_names :=
           lift (py_get task "tags" (VList [VStr "LOW_PRIORITY"])) in
         let* tags :=
           lift (result_bind (py_iter tag_names)
                   (comprehension Tag_getitem)) in
         let* status_name := lift (py_get task "status" (VStr "TODO")) in
         let* status := lift (Status_getitem status_name) in
         let* task_entity :=
           lift (Task_init (VStr task_id) title description cost
                   status tags) in
         let* name := lift (py_getitem agent "name") in
         let agent_entity := mkAgent (VStr agent_id) name in
         let task_entity := set_assignee (Some agent_entity) task_entity in
         let result_task :=
           VDict [ ("task_id", Entities.task_id task_entity);
                   ("title", Entities.title task_entity);
                   ("description", Entities.description task_entity);
                   ("cost", VInt (Entities.cost task_entity));
                   ("tags",
                    VList (map (λ t, VStr (Tag_name t))
                             (Entities.tags task_entity)));
                   ("status",
                    VStr (Status_name (Entities.status task_entity)));
                   ("assignee", Entities.agent_id agent_entity) ] in
         let* result_task' := repo_add task_repo result_task in
         ret (Success result_task'))
    [ (ExceptionC, λ e,
        let* text := lift (py_str e) in
        ret (Failure ("Unexpected adapter error: " ++ text))) ].

End UseCaseFunctions.

(** *** The repositories of the source *)

(** [interfaces.TaskRepository] and [interfaces.AgentRepository] as they
    stand: every method raises [NotImplementedError]. *)
Definition abstract_repository : Repository unit :=
  mkRepository
    (λ _, raise (mkExn NotImplementedErrorC ""))
    (λ _, raise (mkExn NotImplementedErrorC ""))
    (raise (mkExn NotImplementedErrorC "")).

(** The in-memory repositories of [test_use_cases.py].  The world is the
    two [storage] dicts, tasks first. *)
Definition storage : Type := list (string * pyval).

Definition memory_add (id_key : string) (record : pyval) (st : storage)
  : result pyval * storage :=
  let new_id := pretty (length st + 1)%nat in
  match py_setitem record id_key (VStr new_id) with
  | Val record' => (Val record', dict_set new_id record' st)
  | Exc e => (Exc e, st)
  end.

Definition memory_get (id : string) (st : storage) : pyval :=
  match dict_lookup id st with
  | Some record => record
  | None => VNone
  end.

Definition MemoryTaskRepository : Repository (storage * storage) :=
  mkRepository
    (λ task w, let (r, st) := memory_add "task_id" task (fst w) in
               (r, (st, snd w)))
    (λ task_id w, (Val (memory_get task_id (fst w)), w))
    (λ w, (Val (map snd (fst w)), w)).

Definition MemoryAgentRepository : Repository (storage * storage) :=
  mkRepository
    (λ agent w, let (r, st) := memory_add "agent_id" agent (snd w) in
                (r, (fst w, st)))
    (λ agent_id w, (Val (memory_get agent_id (snd w)), w))
    (λ w, (Val (map snd (snd w)), w)).

End UseCases.

(** * Vocabulary of the statements *)

(** The sum of the counts of a tally. *)
Definition total (c : gmap Status nat) : nat :=
  map_fold (λ _ n acc, n + acc) 0 c.

(** The member names of [Tag]. *)
Definition tag_names : list string :=
  ["HIGH_PRIORITY"; "MEDIUM_PRIORITY"; "LOW_PRIORITY"].

(** [y] is a dependency of [x], and [y] is reachable from [x] along
    dependencies (in no step or more). *)
Definition dep_edge (h : heap) (x y : ref) : Prop := y ∈ deps_of h x.

Definition reach (h : heap) : ref → ref → Prop := rtc (dep_edge h).

(** The traversal as the specification words it: a depth-first walk with an
    explicit stack and one [seen] set for the whole walk.  A step pops the
    top of the stack, which must not be in [seen], records it, and pushes
    its dependencies in whatever order the set yields them. *)
Inductive dfs_step (h : heap)
  : gset ref * list ref → gset ref * list ref → Prop :=
| dfs_visit (seen : gset ref) (stack : list ref) (current : ref)
    (pushed : list ref) :
    current ∉ seen →
    pushed ≡ₚ elements (deps_of h current) →
    dfs_step h (seen, (stack ++ [current])%list)
               ({[current]} ∪ seen, (stack ++ pushed)%list).

(** The walk from [self] comes to pop a node it has already seen. *)
Definition pops_seen (h : heap) (self : ref) : Prop :=
  ∃ seen stack current,
    rtc (dfs_step h) (∅, [self]) (seen, (stack ++ [current])%list) ∧
    current ∈ seen.

(** What the walk accepts, without reference to a walk: below [self] no
    task is its own descendant, and no two distinct dependencies of one
    task share a descendant. *)
Definition tree_like (h : heap) (self : ref) : Prop :=
  ∀ u, reach h self u →
    (∀ e, e ∈ deps_of h u → ¬ reach h e u) ∧
    (∀ x y d, x ∈ deps_of h u → y ∈ deps_of h u → x ≠ y →
              reach h x d → ¬ reach h y d).

(** What every walk keeps true below a tree-like [self], whatever the order
    in which dependencies are pushed. *)
Definition walk_inv (h : heap) (self : ref) (st : gset ref * list ref) : Prop :=
  (∀ x, x ∈ st.2 → reach h self x) ∧
  (∀ x y, x ∈ st.2 → reach h x y → y ∉ st.1) ∧
  (∀ i j x y d, i ≠ j → st.2 !! i = Some x → st.2 !! j = Some y →
                reach h x d → ¬ reach h y d).

(** Stores for the examples: freshly constructed tasks, with the
    constructor's defaults, under references 0, 1 and 2. *)
Definition fresh_task (id title : string) : Task :=
  mkTask (VStr id) (VStr title) (VStr "") 1 TODO [] ∅ None None.

Definition one_task : heap := {[ 0 := fresh_task "1" "Task 1" ]}.

Definition agent_1 : Agent := mkAgent (VStr "a1") (VStr "Agent 1").

(** The one task, assigned, started and completed. *)
Definition done_task : heap :=
  exec_ops one_task [OpAssign 0 agent_1; OpStartTask 0; OpCompleteTask 0].

Definition three_tasks : heap :=
  <[ 0 := fresh_task "1" "Task 1" ]>
    (<[ 1 := fresh_task "2" "Task 2" ]>
       {[ 2 := fresh_task "3" "Task 3" ]}).

(** The two tasks of [test_entities.py], and four for a diamond. *)
Definition two_tasks : heap :=
  <[ 0 := fresh_task "1" "Task 1" ]> {[ 1 := fresh_task "2" "Task 2" ]}.

Definition four_tasks : heap :=
  <[ 0 := fresh_task "1" "Task 1" ]>
    (<[ 1 := fresh_task "2" "Task 2" ]>
       (<[ 2 := fresh_task "3" "Task 3" ]>
          {[ 3 := fresh_task "4" "Task 4" ]})).

(** The task an operation is called on. *)
Definition op_self (op : entity_op) : ref :=
  match op with
  | OpAddDependency self _ | OpCanStart self | OpStartTask self
  | OpCanComplete self | OpCompleteTask self | OpSetProject self _
  | OpAssign self _ => self
  end.

(** No task is its own descendant along one dependency or more. *)
Definition acyclic (h : heap) : Prop :=
  ∀ x y, y ∈ deps_of h x → ¬ reach h y x.

(** Every stored task has a cost the constructor lets through. *)
Definition costs_valid (h : heap) : Prop :=
  ∀ r t, h !! r = Some t → (1 ≤ cost t)%Z.

(** A storage dict whose keys are the ids that [add] hands out, in the
    order it hands them out: "1", "2", and so on. *)
Definition sequential_ids (st : UseCases.storage) : Prop :=
  map fst st = map pretty (seq 1 (length st)).

(** The record [create_task] hands to the repository. *)
Definition new_task_record (title description : pyval) (cost : Z)
  (tags : list string) : pyval :=
  VDict [ ("title", title); ("description", description);
          ("cost", VInt cost); ("tags", VList (map VStr tags));
          ("status", VStr "TODO") ].

(** An exception that [except Exception] catches and whose text [str]
    returns. *)
Definition reportable (e : exn) : Prop :=
  derives_from_Exception (exn_cls e) = true ∧ ∃ text, py_str e = Val text.

(** A computation that raises nothing but reportable exceptions, and a
    repository whose [add] and [get] are such computations. *)
Definition raises_reportable {W A : Type} (m : UseCases.M W A) : Prop :=
  ∀ w e w', m w = (Exc e, w') → reportable e.

Definition well_behaved {W : Type} (repo : UseCases.Repository W) : Prop :=
  (∀ record, raises_reportable (UseCases.repo_add repo record)) ∧
  (∀ id, raises_reportable (UseCases.repo_get repo id)).

(** A repository whose every method ends the process with [sys.exit()],
    and one that raises an exception whose [__str__] raises. *)
Definition exiting_repository : UseCases.Repository unit :=
  UseCases.mkRepository
    (λ _, UseCases.raise (mkExn SystemExitC ""))
    (λ _, UseCases.raise (mkExn SystemExitC ""))
    (UseCases.raise (mkExn SystemExitC "")).

Definition unprintable_repository : UseCases.Repository unit :=
  UseCases.mkRepository
    (λ _, UseCases.raise
            (mkExnStrRaises ExceptionC (mkExn TypeErrorC "__str__ failed")))
    (λ _, UseCases.raise
            (mkExnStrRaises ExceptionC (mkExn TypeErrorC "__str__ failed")))
    (UseCases.raise
       (mkExnStrRaises ExceptionC (mkExn TypeErrorC "__str__ failed"))).

(** A computation that raises nothing: from every state of the world it
    ends in a value. *)
Definition no_raise {W A : Type} (m : UseCases.M W A) : Prop :=
  ∀ w, ∃ a w', m w = (Val a, w').

(** A use case that hands its caller a [Result]: it ends in a value, and the
    value is a [Success] or a [Failure]. *)
Definition returns_Result {W : Type} (m : UseCases.M W Result) : Prop :=
  ∀ w, ∃ r w',
    m w = (Val r, w') ∧
    ((∃ value, r = Success value) ∨ (∃ error, r = Failure error)).

(** Whenever the computation ends in a value, the value satisfies [P]. *)
Definition ensures {W A : Type} (m : UseCases.M W A) (P : A → Prop) : Prop :=
  ∀ w a w', m w = (Val a, w') → P a.

(** What a [try] whose handlers return leaves behind: the next statement
    is reached, or the function has returned a result satisfying [P]. *)
Definition flow_ok {A : Type} (P : Result → Prop) (f : UseCases.flow A)
  : Prop :=
  match f with
  | UseCases.Next _ _ => True
  | UseCases.Returned _ r => P r
  end.

Definition succeeded (r : Result) : Prop := ∃ value, r = Success value.

(** A failure whose message starts with [prefix]. *)
Definition failed_with (prefix : string) (r : Result) : Prop :=
  ∃ msg, r = Failure (prefix ++ msg).

(** What the [try] around [add] makes of the outcome of [add], in
    [create_task] and in [assign_task] on its last step: a success with the
    record, the adapter failure with the text of an exception deriving from
    [Exception], and anything else let through (an exception deriving from
    [BaseException] alone, or the one [str] raises). *)
Definition adapter_outcome {W : Type} (o : result pyval * W)
  : result Result * W :=
  match o with
  | (Val record, w') => (Val (Success record), w')
  | (Exc e, w') =>
      if isinstance e ExceptionC then
        match py_str e with
        | Val text =>
            (Val (Failure ("Unexpected adapter error: " ++ text)), w')
        | Exc e' => (Exc e', w')
        end
      else (Exc e, w')
  end.

(** The record [assign_task] hands to the task repository. *)
Definition assigned_task_record (task_id : string)
  (title description : pyval) (cost : Z) (tags : list string)
  (status : Status) (agent_id : string) : pyval :=
  VDict [ ("task_id", VStr task_id); ("title", title);
          ("description", description); ("cost", VInt cost);
          ("tags", VList (map VStr tags));
          ("status", VStr (Status_name status));
          ("assignee", VStr agent_id) ].

(** * Facts about the entities *)

Section TaskMethods.

Implicit Types (h : heap) (self : ref) (t : Task).

Lemma forallb_elements_true (P : ref → bool) (X : gset ref) :
  forallb P (elements X) = true ↔ ∀ x, x ∈ X → P x = true.
Proof.
  rewrite forallb_forall. split; intros H x Hx; apply H.
  - apply list_elem_of_In. by apply elem_of_elements.
  - apply elem_of_elements. by apply list_elem_of_In.
Qed.

Lemma can_start_true h self t :
  h !! self = Some t →
  can_start h self = true ↔
  assignee t ≠ None ∧
  (dependencies t = ∅ ∨
   ∀ dep, dep ∈ dependencies t → status_of h dep = Some DONE).
Proof.
  intros Ht. unfold can_start. rewrite Ht.
  rewrite andb_true_iff, orb_true_iff, !bool_decide_eq_true.
  rewrite forallb_elements_true.
  setoid_rewrite bool_decide_eq_true. reflexivity.
Qed.

Lemma status_of_alter_set_status h self t s :
  h !! self = Some t →
  status_of (alter (set_status s) self h) self = Some s.
Proof.
  intros Ht. unfold status_of. rewrite lookup_alter_eq, Ht. reflexivity.
Qed.

(** C4: [start_task] returns true exactly when [can_start] holds, that is
    when an assignee is set and the dependency set is empty or holds only
    tasks whose status is DONE; it then sets the status to IN_PROGRESS.
    Otherwise it returns false and leaves the store as it was.  A task with
    no assignee is never started. *)
Theorem start_task_iff_can_start h self t :
  h !! self = Some t →
  let ready :=
    assignee t ≠ None ∧
    (dependencies t = ∅ ∨
     ∀ dep, dep ∈ dependencies t → status_of h dep = Some DONE) in
  (can_start h self = true ↔ ready) ∧
  (fst (start_task h self) = true ↔ ready) ∧
  (ready →
   start_task h self = (true, alter (set_status IN_PROGRESS) self h) ∧
   status_of (snd (start_task h self)) self = Some IN_PROGRESS) ∧
  (¬ ready → start_task h self = (false, h)) ∧
  (assignee t = None → start_task h self = (false, h)).
Proof.
  intros Ht ready.
  pose proof (can_start_true h self t Ht) as Hcs. fold ready in Hcs.
  assert (Hst : fst (start_task h self) = can_start h self).
  { unfold start_task. by destruct (can_start h self). }
  split; [exact Hcs|]. split; [by rewrite Hst|].
  assert (Hno : ¬ ready → start_task h self = (false, h)).
  { intros Hn. unfold start_task.
    destruct (can_start h self) eqn:E; [|done].
    exfalso. by apply Hn, Hcs. }
  split; [|split; [exact Hno|]].
  - intros Hr. apply Hcs in Hr. unfold start_task. rewrite Hr. simpl.
    split; [done|]. by eapply status_of_alter_set_status.
  - intros Hnone. apply Hno. intros [Ha _]. by apply Ha.
Qed.

Lemma start_task_iff_can_start_witness :
  assign one_task 0 agent_1 !! 0
  = Some (set_assignee (Some agent_1) (fresh_task "1" "Task 1")) ∧
  fst (start_task (assign one_task 0 agent_1) 0) = true ∧
  start_task one_task 0 = (false, one_task).
Proof.
  assert (H1 : assign one_task 0 agent_1 !! 0
               = Some (set_assignee (Some agent_1) (fresh_task "1" "Task 1")))
    by (vm_compute; reflexivity).
  assert (H0 : one_task !! 0 = Some (fresh_task "1" "Task 1"))
    by (vm_compute; reflexivity).
  split; [exact H1|]. split.
  - apply (start_task_iff_can_start _ _ _ H1). simpl. split; [done|by left].
  - apply (start_task_iff_can_start _ _ _ H0). reflexivity.
Defined.

End TaskMethods.

Section Makespan.

Lemma fold_left_Zadd_acc (l : list Z) (a : Z) :
  fold_left Z.add l a = (a + foldr Z.add 0 l)%Z.
Proof.
  revert a. induction l as [|x l IH]; intros a; simpl; [lia|].
  rewrite IH. lia.
Qed.

Lemma py_sum_foldr (l : list Z) : py_sum l = foldr Z.add 0%Z l.
Proof. unfold py_sum. rewrite fold_left_Zadd_acc. lia. Qed.

Lemma fold_left_Zmax_bounds (l : list Z) (a : Z) :
  let m := fold_left Z.max l a in
  (m = a ∨ m ∈ l) ∧ (a ≤ m)%Z ∧ ∀ x, x ∈ l → (x ≤ m)%Z.
Proof.
  revert a. induction l as [|y l IH]; intros a; simpl.
  - split; [by left|]. split; [lia|]. intros x Hx. by apply elem_of_nil in Hx.
  - destruct (IH (Z.max a y)) as (Hin & Hle & Hall).
    split; [|split].
    + destruct Hin as [Heq|Hin].
      * destruct (Z.max_spec a y) as [[_ Hm]|[_ Hm]]; rewrite Hm in Heq |- *.
        -- right. rewrite Heq. apply list_elem_of_here.
        -- by left.
      * right. by apply list_elem_of_further.
    + lia.
    + intros x Hx. apply elem_of_cons in Hx as [->|Hx]; [lia|by apply Hall].
Qed.

Lemma py_max_spec (l : list Z) :
  l ≠ [] →
  ∃ m, py_max l = Some m ∧ m ∈ l ∧ ∀ x, x ∈ l → (x ≤ m)%Z.
Proof.
  destruct l as [|a l]; [done|]. intros _. simpl.
  destruct (fold_left_Zmax_bounds l a) as (Hin & Hle & Hall).
  eexists. split; [reflexivity|]. split.
  - destruct Hin as [->|Hin]; [apply list_elem_of_here|].
    by apply list_elem_of_further.
  - intros x Hx. apply elem_of_cons in Hx as [->|Hx]; [done|by apply Hall].
Qed.

(** C7: [get_makespan_boundaries] gives (0, 0) on no task; on a non-empty
    list it gives the largest single cost (a cost of the list that bounds
    every cost of the list) and the sum of all costs; on costs 5, 10, 100 it
    gives (100, 115). *)
Theorem get_makespan_boundaries_spec :
  get_makespan_boundaries [] = Some (0, 0)%Z ∧
  (∀ tasks : list Task, tasks ≠ [] →
     ∃ largest : Z,
       get_makespan_boundaries tasks
       = Some (largest, foldr Z.add 0%Z (map cost tasks)) ∧
       (∃ t, t ∈ tasks ∧ cost t = largest) ∧
       ∀ t, t ∈ tasks → (cost t ≤ largest)%Z) ∧
  (∀ t1 t2 t3 : Task,
     cost t1 = 5%Z → cost t2 = 10%Z → cost t3 = 100%Z →
     get_makespan_boundaries [t1; t2; t3] = Some (100, 115)%Z).
Proof.
  split; [reflexivity|]. split.
  - intros tasks Hne.
    destruct (py_max_spec (map cost tasks)) as (m & Hm & Hin & Hall).
    { destruct tasks; [done|]. discriminate. }
    exists m. split; [|split].
    + unfold get_makespan_boundaries. destruct tasks as [|t ts]; [done|].
      rewrite Hm, py_sum_foldr. reflexivity.
    + apply list_elem_of_fmap in Hin as (t & -> & Ht). by exists t.
    + intros t Ht. apply Hall. apply list_elem_of_fmap. by exists t.
  - intros t1 t2 t3 H1 H2 H3. unfold get_makespan_boundaries. simpl.
    unfold py_sum. simpl. rewrite H1, H2, H3. reflexivity.
Qed.

End Makespan.

Section StatusTally.

Implicit Types (c : gmap Status nat) (l : list Status) (s : Status).

Lemma total_insert_fresh c s n :
  c !! s = None → total (<[s := n]> c) = n + total c.
Proof.
  intros Hs. unfold total. apply map_fold_insert_L; [|done].
  intros. lia.
Qed.

Lemma total_bump c s : total (Counter_bump c s) = S (total c).
Proof.
  unfold Counter_bump. destruct (c !! s) as [n|] eqn:Hs; simpl.
  - rewrite <- (insert_delete_eq c s (S n)).
    rewrite total_insert_fresh by apply lookup_delete_eq.
    rewrite <- (insert_id c s n Hs) at 2.
    rewrite <- (insert_delete_eq c s n).
    rewrite total_insert_fresh by apply lookup_delete_eq. lia.
  - by rewrite total_insert_fresh.
Qed.

Lemma total_fold_left l c :
  total (fold_left Counter_bump l c) = length l + total c.
Proof.
  revert c. induction l as [|x l IH]; intros c; simpl; [done|].
  rewrite IH, total_bump. lia.
Qed.

Lemma lookup_bump c s s' :
  Counter_bump c s !! s' =
  if decide (s = s') then Some (S (default 0 (c !! s))) else c !! s'.
Proof. unfold Counter_bump. apply lookup_insert. Qed.

(** What the loop leaves under [s]: the count it started from plus the
    occurrences of [s], and no entry at all when both are nothing. *)
Lemma lookup_fold_left_bump l c s :
  fold_left Counter_bump l c !! s =
  match c !! s, length (filter (λ x, x = s) l) with
  | None, 0 => None
  | o, k => Some (default 0 o + k)
  end.
Proof.
  revert c. induction l as [|x l IH]; intros c; simpl.
  - destruct (c !! s); simpl; [f_equal; lia|done].
  - rewrite IH, lookup_bump, filter_cons.
    destruct (decide (x = s)) as [->|Hne]; simpl.
    + destruct (c !! s); simpl; f_equal; lia.
    + reflexivity.
Qed.

Lemma total_empty : total (∅ : gmap Status nat) = 0.
Proof. unfold total. apply map_fold_empty. Qed.

(** C8: [track_statuses] has an entry for exactly the statuses that occur
    among the tasks, each entry is the number of tasks bearing that status,
    a status that does not occur has no entry, and the counts add up to the
    number of tasks. *)
Theorem track_statuses_spec (tasks : list Task) :
  (∀ s, let n := length (filter (λ t, status t = s) tasks) in
        track_statuses tasks !! s = if decide (n = 0) then None else Some n) ∧
  (∀ s, is_Some (track_statuses tasks !! s) ↔ ∃ t, t ∈ tasks ∧ status t = s) ∧
  total (track_statuses tasks) = length tasks.
Proof.
  assert (Hcount : ∀ s,
    length (filter (λ x, x = s) (map status tasks))
    = length (filter (λ t, status t = s) tasks)).
  { intros s. induction tasks as [|t ts IH]; [done|].
    simpl. rewrite !filter_cons.
    destruct (decide (status t = s)); simpl; by rewrite IH. }
  assert (Hlookup : ∀ s,
    track_statuses tasks !! s =
    if decide (length (filter (λ t, status t = s) tasks) = 0) then None
    else Some (length (filter (λ t, status t = s) tasks))).
  { intros s. unfold track_statuses, Counter.
    rewrite lookup_fold_left_bump, lookup_empty, Hcount.
    destruct (length (filter (λ t, status t = s) tasks)); done. }
  split; [exact Hlookup|]. split.
  - intros s. rewrite Hlookup. case_decide as Hz.
    + split; [intros [? ?]; done|]. intros (t & Ht & Hs).
      exfalso. apply length_zero_iff_nil in Hz.
      assert (t ∈ filter (λ t, status t = s) tasks) as Hin
        by (apply list_elem_of_filter; done).
      rewrite Hz in Hin. by apply elem_of_nil in Hin.
    + split; [|by eauto]. intros _.
      destruct (filter (λ t, status t = s) tasks) as [|t r] eqn:E; [done|].
      assert (t ∈ filter (λ t, status t = s) tasks) as Hin
        by (rewrite E; apply list_elem_of_here).
      apply list_elem_of_filter in Hin as [? ?]. by exists t.
  - unfold track_statuses, Counter.
    rewrite total_fold_left, total_empty, length_map. lia.
Qed.

End StatusTally.


(** * Facts about validate_dependencies *)

Section Traversal.

Local Close Scope string_scope.

Implicit Types (h : heap) (seen : gset ref) (stack : list ref).

Lemma list_pop_snoc {A : Type} (l : list A) (x : A) :
  list_pop (l ++ [x]) = Some (l, x).
Proof. induction l as [|y l IH]; simpl; [done|]. by rewrite IH. Qed.

Lemma list_pop_Some {A : Type} (l r : list A) (x : A) :
  list_pop l = Some (r, x) → l = r ++ [x].
Proof.
  revert r. induction l as [|y l IH]; intros r; simpl; [done|].
  destruct (list_pop l) as [[r' z]|] eqn:E.
  - intros [= <- <-]. simpl. f_equal. by apply IH.
  - intros [= <- <-]. destruct l as [|z l]; [done|].
    simpl in E. by destruct (list_pop l) as [[? ?]|].
Qed.

Lemma list_pop_None {A : Type} (l : list A) : list_pop l = None → l = [].
Proof.
  destruct l as [|y l]; [done|]. simpl. by destruct (list_pop l) as [[? ?]|].
Qed.

(** The three ways through the loop body. *)
Lemma loop_body_cases h seen stack :
  match loop_body h seen stack with
  | Return true => stack = []
  | Return false =>
      ∃ rest current, stack = rest ++ [current] ∧ current ∈ seen
  | Continue seen' stack' =>
      ∃ rest current,
        stack = rest ++ [current] ∧ (current ∉ seen) ∧
        seen' = {[current]} ∪ seen ∧
        stack' = rest ++ elements (deps_of h current) ∧
        size seen' = S (size seen)
  end.
Proof.
  unfold loop_body. destruct (list_pop stack) as [[rest current]|] eqn:E.
  - apply list_pop_Some in E. destruct (decide (current ∈ seen)).
    + by exists rest, current.
    + exists rest, current. repeat split; try done.
      rewrite size_union by set_solver. by rewrite size_singleton.
  - by apply list_pop_None.
Qed.

Lemma loop_body_snoc h seen rest current :
  loop_body h seen (rest ++ [current]) =
  if decide (current ∈ seen) then Return false
  else Continue ({[current]} ∪ seen) (rest ++ elements (deps_of h current)).
Proof. unfold loop_body. by rewrite list_pop_snoc. Qed.

Lemma while_loop_more_fuel fuel fuel' h seen stack r :
  while_loop fuel h seen stack = Some r → fuel ≤ fuel' →
  while_loop fuel' h seen stack = Some r.
Proof.
  revert fuel' seen stack r.
  induction fuel as [|fuel IH]; intros fuel' seen stack r; [done|].
  intros Hrun Hle. destruct fuel' as [|fuel']; [lia|]. simpl in *.
  destruct (loop_body h seen stack) as [b|seen' stack']; [done|].
  destruct (while_loop fuel h seen' stack') as [[b n]|] eqn:E; [|done].
  rewrite (IH fuel' _ _ _ E) by lia. done.
Qed.

(** Termination: inside a finite set [U] that holds the stack and is closed
    under dependencies, every pass that does not return puts a new element
    of [U] into [seen]. *)
Lemma while_loop_terminates h (U : gset ref) fuel seen stack :
  (∀ x, x ∈ U → deps_of h x ⊆ U) →
  (∀ x, x ∈ stack → x ∈ U) →
  seen ⊆ U →
  size U - size seen < fuel →
  ∃ b n, while_loop fuel h seen stack = Some (b, n) ∧
         n ≤ size U - size seen.
Proof.
  intros Hclosed. revert seen stack.
  induction fuel as [|fuel IH]; intros seen stack Hstack Hseen Hfuel; [lia|].
  simpl. pose proof (loop_body_cases h seen stack) as Hbody.
  destruct (loop_body h seen stack) as [b|seen' stack'].
  { exists b, 0. split; [done|lia]. }
  destruct Hbody as (rest & current & -> & Hnew & -> & -> & Hsize).
  assert (current ∈ U) as HcU by (apply Hstack; set_solver).
  assert ({[current]} ∪ seen ⊆ U) as Hseen' by set_solver.
  pose proof (subseteq_size _ _ Hseen') as Hle.
  destruct (IH ({[current]} ∪ seen) (rest ++ elements (deps_of h current)))
    as (b & n & Hrun & Hn).
  - intros x Hx. apply elem_of_app in Hx as [Hx|Hx].
    + apply Hstack. set_solver.
    + apply elem_of_elements in Hx. by apply (Hclosed current).
  - done.
  - lia.
  - exists b, (S n). rewrite Hrun. split; [done|lia].
Qed.

Lemma elem_of_all_dependencies h (x : ref) :
  x ∈ map_fold (λ _ t acc, dependencies t ∪ acc) (∅ : gset ref) h ↔
  ∃ r t, h !! r = Some t ∧ x ∈ dependencies t.
Proof.
  induction h as [|r t h Hr Hfold IH] using map_first_key_ind.
  - rewrite map_fold_empty. split; [set_solver|].
    intros (r & t & Hr & _). by rewrite lookup_empty in Hr.
  - rewrite map_fold_insert_first_key by done.
    rewrite elem_of_union, IH. split.
    + intros [Hx|(r' & t' & Hr' & Hx)].
      * exists r, t. by rewrite lookup_insert_eq.
      * exists r', t'. split; [|done].
        rewrite lookup_insert_ne; [done|]. intros ->. congruence.
    + intros (r' & t' & Hr' & Hx).
      destruct (decide (r = r')) as [->|Hne].
      * rewrite lookup_insert_eq in Hr'. left. congruence.
      * rewrite lookup_insert_ne in Hr' by done. right. by eauto.
Qed.

Lemma universe_closed h task x :
  x ∈ universe h task → deps_of h x ⊆ universe h task.
Proof.
  intros _ y Hy. unfold universe. apply elem_of_union. right.
  apply elem_of_all_dependencies. unfold deps_of in Hy.
  destruct (h !! x) as [t|] eqn:E; [by eauto|set_solver].
Qed.

(** The fuel [validate_dependencies] runs on is enough. *)
Lemma while_loop_enough_fuel h task :
  ∃ b n, while_loop (S (size (universe h task))) h ∅ [task] = Some (b, n) ∧
         validate_dependencies h task = b.
Proof.
  destruct (while_loop_terminates h (universe h task)
              (S (size (universe h task))) ∅ [task]) as (b & n & Hrun & _).
  - apply universe_closed.
  - intros x Hx. apply list_elem_of_singleton in Hx as ->.
    unfold universe. set_solver.
  - set_solver.
  - rewrite size_empty. lia.
  - exists b, n. split; [done|]. unfold validate_dependencies. by rewrite Hrun.
Qed.

Lemma validate_dependencies_run h task fuel b n :
  while_loop fuel h ∅ [task] = Some (b, n) →
  validate_dependencies h task = b.
Proof.
  intros Hrun. destruct (while_loop_enough_fuel h task) as (b' & n' & Hrun' & <-).
  destruct (Nat.le_ge_cases fuel (S (size (universe h task)))) as [Hle|Hle].
  - rewrite (while_loop_more_fuel _ _ _ _ _ _ Hrun Hle) in Hrun'. congruence.
  - rewrite (while_loop_more_fuel _ _ _ _ _ _ Hrun' Hle) in Hrun. congruence.
Qed.

End Traversal.

Section Verdict.

Local Close Scope string_scope.

Implicit Types (h : heap) (seen : gset ref) (stack : list ref).

Lemma reach_dep h x y z : y ∈ deps_of h x → reach h y z → reach h x z.
Proof. intros Hxy Hyz. by eapply rtc_l. Qed.

Lemma reach_inv h x z :
  reach h x z → x = z ∨ ∃ y, y ∈ deps_of h x ∧ reach h y z.
Proof. intros H. by apply rtc_inv in H. Qed.

(** A run that accepts never had, on its stack, a node with a descendant
    in [seen]. *)
Lemma accepted_unseen h fuel seen stack n :
  while_loop fuel h seen stack = Some (true, n) →
  ∀ x y, x ∈ stack → reach h x y → y ∉ seen.
Proof.
  revert seen stack n.
  induction fuel as [|fuel IH]; intros seen stack n; [done|]. simpl.
  pose proof (loop_body_cases h seen stack) as Hbody.
  destruct (loop_body h seen stack) as [[]|seen' stack'].
  - intros _ x y Hx. subst stack. by apply elem_of_nil in Hx.
  - done.
  - destruct Hbody as (rest & current & -> & Hnew & -> & -> & _).
    destruct (while_loop fuel h _ _) as [[b n']|] eqn:Hrun; [|done].
    intros [= -> <-] x y Hx Hxy.
    specialize (IH _ _ _ Hrun).
    apply elem_of_app in Hx as [Hx|Hx].
    + intros Hy. apply (IH x y); [set_solver|done|set_solver].
    + apply list_elem_of_singleton in Hx as ->.
      apply reach_inv in Hxy as [<-|(e & He & Hey)]; [done|].
      intros Hy. apply (IH e y); [|done|set_solver].
      apply elem_of_app. right. by apply elem_of_elements.
Qed.

(** Nor two stack entries with a common descendant. *)
Lemma accepted_disjoint h fuel seen stack n :
  while_loop fuel h seen stack = Some (true, n) →
  ∀ i j x y d, i ≠ j → stack !! i = Some x → stack !! j = Some y →
               reach h x d → ¬ reach h y d.
Proof.
  revert seen stack n.
  induction fuel as [|fuel IH]; intros seen stack n; [done|]. simpl.
  pose proof (loop_body_cases h seen stack) as Hbody.
  destruct (loop_body h seen stack) as [[]|seen' stack'].
  - intros _ i j x y d _ Hi. subst stack. by rewrite lookup_nil in Hi.
  - done.
  - destruct Hbody as (rest & current & -> & Hnew & -> & -> & _).
    destruct (while_loop fuel h _ _) as [[b n']|] eqn:Hrun; [|done].
    intros [= -> <-].
    pose proof (accepted_unseen _ _ _ _ _ Hrun) as Hunseen.
    specialize (IH _ _ _ Hrun).
    (* a stack entry below the top against the top *)
    assert (Htop : ∀ i x d, rest !! i = Some x →
                            reach h x d → ¬ reach h current d).
    { intros i x d Hi Hxd Hcd.
      apply reach_inv in Hcd as [<-|(e & He & Hed)].
      - apply (Hunseen x current); [|done|set_solver].
        apply elem_of_app. left. by eapply list_elem_of_lookup_2.
      - apply elem_of_elements, list_elem_of_lookup in He as [k Hk].
        apply (IH i (length rest + k) x e d); [| | |done|done].
        + apply lookup_lt_Some in Hi. lia.
        + by apply lookup_app_l_Some.
        + rewrite lookup_app_r by lia.
          by replace (length rest + k - length rest) with k by lia. }
    intros i j x y d Hij Hi Hj Hxd Hyd.
    apply lookup_snoc_Some in Hi as [[Hil Hi]|[-> <-]];
      apply lookup_snoc_Some in Hj as [[Hjl Hj]|[-> <-]].
    + apply (IH i j x y d); try done; by apply lookup_app_l_Some.
    + by apply (Htop i x d).
    + by apply (Htop j y d).
    + done.
Qed.

(** So a run that accepts walked a tree. *)
Lemma accepted_tree_like h fuel seen stack n :
  while_loop fuel h seen stack = Some (true, n) →
  ∀ s, s ∈ stack → tree_like h s.
Proof.
  revert seen stack n.
  induction fuel as [|fuel IH]; intros seen stack n; [done|]. simpl.
  pose proof (loop_body_cases h seen stack) as Hbody.
  destruct (loop_body h seen stack) as [[]|seen' stack'].
  - intros _ s Hs. subst stack. by apply elem_of_nil in Hs.
  - done.
  - destruct Hbody as (rest & current & -> & Hnew & -> & -> & _).
    destruct (while_loop fuel h _ _) as [[b n']|] eqn:Hrun; [|done].
    intros [= -> <-] s Hs.
    pose proof (accepted_unseen _ _ _ _ _ Hrun) as Hunseen.
    pose proof (accepted_disjoint _ _ _ _ _ Hrun) as Hdisjoint.
    specialize (IH _ _ _ Hrun).
    apply elem_of_app in Hs as [Hs|Hs].
    { apply IH. set_solver. }
    apply list_elem_of_singleton in Hs as ->. intros u Hu.
    apply reach_inv in Hu as [<-|(e & He & Heu)].
    + split.
      * intros e He Hec. apply (Hunseen e current); [|done|set_solver].
        apply elem_of_app. right. by apply elem_of_elements.
      * intros x y d Hx Hy Hxy Hxd Hyd.
        apply elem_of_elements, list_elem_of_lookup in Hx as [i Hi].
        apply elem_of_elements, list_elem_of_lookup in Hy as [j Hj].
        apply (Hdisjoint (length rest + i) (length rest + j) x y d);
          [| | |done|done].
        -- intros Heq. assert (i = j) as -> by lia. congruence.
        -- rewrite lookup_app_r by lia.
           by replace (length rest + i - length rest) with i by lia.
        -- rewrite lookup_app_r by lia.
           by replace (length rest + j - length rest) with j by lia.
    + apply (IH e); [|done].
      apply elem_of_app. right. by apply elem_of_elements.
Qed.

(** A run that rejects is a walk that pops a seen node. *)
Lemma rejected_pops_seen h fuel seen stack n :
  while_loop fuel h seen stack = Some (false, n) →
  ∃ seen' rest current,
    rtc (dfs_step h) (seen, stack) (seen', rest ++ [current]) ∧
    current ∈ seen'.
Proof.
  revert seen stack n.
  induction fuel as [|fuel IH]; intros seen stack n; [done|]. simpl.
  pose proof (loop_body_cases h seen stack) as Hbody.
  destruct (loop_body h seen stack) as [[]|seen' stack'].
  - done.
  - intros _. destruct Hbody as (rest & current & -> & Hin).
    by exists seen, rest, current.
  - destruct Hbody as (rest & current & -> & Hnew & -> & -> & _).
    destruct (while_loop fuel h _ _) as [[b n']|] eqn:Hrun; [|done].
    intros [= -> <-].
    destruct (IH _ _ _ Hrun) as (seen' & rest' & current' & Hwalk & Hin).
    exists seen', rest', current'. split; [|done].
    eapply rtc_l; [|exact Hwalk]. by constructor.
Qed.

Lemma walk_inv_init h self : walk_inv h self (∅, [self]).
Proof.
  split; [|split]; simpl.
  - intros x Hx. apply list_elem_of_singleton in Hx as ->. apply rtc_refl.
  - set_solver.
  - intros i j x y d Hij Hi Hj.
    apply list_lookup_singleton_Some in Hi as [-> _].
    apply list_lookup_singleton_Some in Hj as [-> _]. done.
Qed.

Lemma walk_inv_step h self st st' :
  tree_like h self → walk_inv h self st → dfs_step h st st' →
  walk_inv h self st'.
Proof.
  intros Htree (Hreach & Hunseen & Hdisjoint) Hstep.
  destruct Hstep as [seen rest current pushed Hnew Hperm]. simpl in *.
  assert (Hcur : reach h self current) by (apply Hreach; set_solver).
  destruct (Htree current Hcur) as [Hnocycle Hnodiamond].
  assert (Hpushed : ∀ e, e ∈ pushed ↔ e ∈ deps_of h current).
  { intros e. by rewrite Hperm, elem_of_elements. }
  assert (Hlast : (rest ++ [current]) !! length rest = Some current).
  { apply lookup_snoc_Some. by right. }
  assert (Hrest : ∀ i x d, rest !! i = Some x →
                           reach h x d → ¬ reach h current d).
  { intros i x d Hi. apply (Hdisjoint i (length rest)); [|by apply lookup_app_l_Some|done].
    apply lookup_lt_Some in Hi. lia. }
  unfold walk_inv. simpl. split; [|split].
  - intros x Hx. apply elem_of_app in Hx as [Hx|Hx].
    + apply Hreach. set_solver.
    + apply Hpushed in Hx. eapply rtc_r; [exact Hcur|done].
  - intros x y Hx Hxy Hy. apply elem_of_app in Hx as [Hx|Hx].
    + apply elem_of_union in Hy as [Hy|Hy].
      * apply elem_of_singleton in Hy as ->.
        apply list_elem_of_lookup in Hx as [i Hi].
        apply (Hrest i x current Hi Hxy). apply rtc_refl.
      * apply (Hunseen x y); [set_solver|done|done].
    + apply Hpushed in Hx. apply elem_of_union in Hy as [Hy|Hy].
      * apply elem_of_singleton in Hy as ->. by apply (Hnocycle x).
      * apply (Hunseen current y); [set_solver| |done].
        by eapply reach_dep.
  - intros i j x y d Hij Hi Hj Hxd Hyd.
    apply lookup_app_Some in Hi as [Hi|[Hil Hi]];
      apply lookup_app_Some in Hj as [Hj|[Hjl Hj]].
    + apply (Hdisjoint i j x y d); try done; by apply lookup_app_l_Some.
    + apply (Hrest i x d Hi Hxd).
      eapply reach_dep; [|exact Hyd].
      apply Hpushed. by eapply list_elem_of_lookup_2.
    + apply (Hrest j y d Hj Hyd).
      eapply reach_dep; [|exact Hxd].
      apply Hpushed. by eapply list_elem_of_lookup_2.
    + apply (Hnodiamond x y d); try done.
      * apply Hpushed. by eapply list_elem_of_lookup_2.
      * apply Hpushed. by eapply list_elem_of_lookup_2.
      * intros ->.
        assert (NoDup pushed) as Hnd by (rewrite Hperm; apply NoDup_elements).
        assert (i - length rest = j - length rest) as Heq
          by (eapply NoDup_lookup; eauto).
        lia.
Qed.

Lemma tree_like_never_pops_seen h self :
  tree_like h self → ¬ pops_seen h self.
Proof.
  intros Htree (seen & rest & current & Hwalk & Hin).
  assert (walk_inv h self (seen, rest ++ [current])) as (_ & Hunseen & _).
  { revert Hwalk. generalize (seen, rest ++ [current]).
    apply rtc_ind_r; [apply walk_inv_init|].
    intros st st' _ Hstep Hinv. by eapply walk_inv_step. }
  apply (Hunseen current current); [set_solver|apply rtc_refl|done].
Qed.

(** The verdict of [validate_dependencies], in three equivalent forms. *)
Lemma validate_dependencies_true h self :
  (validate_dependencies h self = true ↔ tree_like h self) ∧
  (validate_dependencies h self = true ↔ ¬ pops_seen h self).
Proof.
  destruct (while_loop_enough_fuel h self) as (b & n & Hrun & Hb).
  assert (H1 : validate_dependencies h self = true → tree_like h self).
  { intros Ht. rewrite Ht in Hb. subst b.
    eapply accepted_tree_like; [exact Hrun|]. set_solver. }
  assert (H2 : ¬ pops_seen h self → validate_dependencies h self = true).
  { intros Hnp. rewrite Hb. destruct b; [done|]. exfalso. apply Hnp.
    destruct (rejected_pops_seen _ _ _ _ _ Hrun) as (s & r & c & Hw & Hin).
    by exists s, r, c. }
  pose proof (tree_like_never_pops_seen h self) as H3.
  split; split; auto.
Qed.

End Verdict.

Section Claims.

Local Close Scope string_scope.

Implicit Types (h : heap) (seen : gset ref) (stack : list ref).

(** The passes that ran the whole body each recorded a different node, a
    descendant of something on the stack. *)
Lemma while_loop_visited h fuel seen stack b n :
  while_loop fuel h seen stack = Some (b, n) →
  ∃ visited : gset ref,
    size visited = n ∧ visited ## seen ∧
    ∀ x, x ∈ visited → ∃ s, s ∈ stack ∧ reach h s x.
Proof.
  revert seen stack b n.
  induction fuel as [|fuel IH]; intros seen stack b n; [done|]. simpl.
  pose proof (loop_body_cases h seen stack) as Hbody.
  destruct (loop_body h seen stack) as [b'|seen' stack'].
  { intros [= <- <-]. exists ∅. rewrite size_empty. set_solver. }
  destruct Hbody as (rest & current & -> & Hnew & -> & -> & _).
  destruct (while_loop fuel h _ _) as [[b' n']|] eqn:Hrun; [|done].
  intros [= <- <-].
  destruct (IH _ _ _ _ Hrun) as (visited & Hsize & Hdisj & Hreach).
  exists ({[current]} ∪ visited). split; [|split].
  - rewrite size_union by set_solver. rewrite size_singleton. lia.
  - set_solver.
  - intros x Hx. apply elem_of_union in Hx as [Hx|Hx].
    + apply elem_of_singleton in Hx as ->. exists current.
      split; [set_solver|apply rtc_refl].
    + destruct (Hreach x Hx) as (s & Hs & Hsx).
      apply elem_of_app in Hs as [Hs|Hs].
      * exists s. split; [set_solver|done].
      * exists current. split; [set_solver|].
        apply elem_of_elements in Hs. by eapply reach_dep.
Qed.

(** A walk of [k] steps, in any push order, has recorded [k] new nodes, all
    of them descendants of what was on the stack. *)
Lemma walk_visited h k st st' :
  nsteps (dfs_step h) k st st' →
  size st'.1 = k + size st.1 ∧
  (∀ x, x ∈ st'.1 → x ∈ st.1 ∨ ∃ s, s ∈ st.2 ∧ reach h s x) ∧
  (∀ x, x ∈ st'.2 → ∃ s, s ∈ st.2 ∧ reach h s x).
Proof.
  induction 1 as [st|k st st1 st' Hstep _ IH].
  - split; [done|]. split; [by left|].
    intros x Hx. exists x. split; [done|apply rtc_refl].
  - destruct IH as (Hsize & Hseen & Hstack).
    destruct Hstep as [seen rest current pushed Hnew Hperm]. simpl in *.
    assert (Hfrom : ∀ s x, s ∈ rest ++ pushed → reach h s x →
                           ∃ s', s' ∈ rest ++ [current] ∧ reach h s' x).
    { intros s x Hs Hsx. apply elem_of_app in Hs as [Hs|Hs].
      - exists s. split; [set_solver|done].
      - exists current. split; [set_solver|].
        rewrite Hperm in Hs. apply elem_of_elements in Hs.
        by eapply reach_dep. }
    split; [|split].
    + rewrite Hsize, size_union by set_solver. rewrite size_singleton. lia.
    + intros x Hx. destruct (Hseen x Hx) as [Hin|(s & Hs & Hsx)].
      * apply elem_of_union in Hin as [Hin|Hin]; [|by left].
        apply elem_of_singleton in Hin as ->. right. exists current.
        split; [set_solver|apply rtc_refl].
      * right. by eapply Hfrom.
    + intros x Hx. destruct (Hstack x Hx) as (s & Hs & Hsx). by eapply Hfrom.
Qed.

Lemma walk_length_bound h (task : ref) (R : gset ref) k st :
  (∀ r, reach h task r → r ∈ R) →
  nsteps (dfs_step h) k (∅, [task]) st → k ≤ size R.
Proof.
  intros HR Hwalk.
  destruct (walk_visited _ _ _ _ Hwalk) as (Hsize & Hseen & _).
  cbn [fst snd] in *. rewrite size_empty in Hsize.
  assert (k = size st.1) as -> by lia.
  apply subseteq_size.
  intros x Hx. destruct (Hseen x Hx) as [Hin|(s & Hs & Hsx)]; [set_solver|].
  apply list_elem_of_singleton in Hs as ->. by apply HR.
Qed.
(** C9: [validate_dependencies] terminates on every store, cyclic or not.
    Each pass through the loop ends it (with true on an empty stack, with
    false on a popped node that is in [seen]) or puts a node that was not in
    [seen] into it; the run from [task] makes some number [n] of passes of
    the latter kind and then returns, given any fuel above [n]; and [n] is at
    most the size of any set that holds the tasks reachable from [task].
    The same bound holds for a walk that pushes dependencies in any other
    order. *)
Theorem validate_dependencies_terminates h (task : ref) :
  (∀ seen stack,
     match loop_body h seen stack with
     | Return true => stack = []
     | Return false =>
         ∃ rest current, stack = rest ++ [current] ∧ current ∈ seen
     | Continue seen' stack' =>
         ∃ rest current,
           stack = rest ++ [current] ∧ (current ∉ seen) ∧
           seen' = {[current]} ∪ seen ∧
           stack' = rest ++ elements (deps_of h current) ∧
           size seen' = S (size seen)
     end) ∧
  ∃ b n,
    (∀ fuel, n < fuel → while_loop fuel h ∅ [task] = Some (b, n)) ∧
    validate_dependencies h task = b ∧
    (∀ R : gset ref,
       (∀ r, reach h task r → r ∈ R) →
       n ≤ size R ∧
       ∀ k st, nsteps (dfs_step h) k (∅, [task]) st → k ≤ size R).
Proof.
  split; [apply loop_body_cases|].
  destruct (while_loop_enough_fuel h task) as (b & n & Hrun & Hb).
  destruct (while_loop_visited _ _ _ _ _ _ Hrun)
    as (visited & Hsize & _ & Hreach).
  assert (Hbound : ∀ R : gset ref,
            (∀ r, reach h task r → r ∈ R) →
            n ≤ size R ∧
            ∀ k st, nsteps (dfs_step h) k (∅, [task]) st → k ≤ size R).
  { intros R HR. split; [|intros k st; by apply walk_length_bound].
    rewrite <- Hsize. apply subseteq_size. intros x Hx.
    destruct (Hreach x Hx) as (s & Hs & Hsx).
    apply list_elem_of_singleton in Hs as ->. by apply HR. }
  exists b, n. split; [|by split].
  intros fuel Hfuel.
  (* the run needs no more than [n] passes and the last one *)
  clear Hb Hbound Hsize Hreach visited.
  revert Hrun Hfuel. generalize (S (size (universe h task))).
  generalize (∅ : gset ref) [task]. revert b n fuel.
  intros b n fuel seen stack big. revert seen stack b n fuel.
  induction big as [|big IH]; intros seen stack b n fuel; [done|]. simpl.
  destruct fuel as [|fuel]; [lia|]. simpl.
  destruct (loop_body h seen stack) as [b'|seen' stack']; [done|].
  destruct (while_loop big h seen' stack') as [[b' n']|] eqn:Hrun; [|done].
  intros [= <- <-] Hfuel. rewrite (IH _ _ _ _ fuel Hrun) by lia. done.
Qed.

Lemma deps_of_dependencies_add h (self other r : ref) :
  deps_of (dependencies_add h self other) r =
  if decide (self = r) then
    match h !! self with
    | Some t => {[other]} ∪ dependencies t
    | None => ∅
    end
  else deps_of h r.
Proof.
  unfold deps_of, dependencies_add. rewrite lookup_alter.
  destruct (decide (self = r)) as [->|]; [|done].
  by destruct (h !! r).
Qed.

Lemma deps_of_dependencies_remove h (self other r : ref) :
  deps_of (dependencies_remove h self other) r =
  if decide (self = r) then deps_of h self ∖ {[other]} else deps_of h r.
Proof.
  unfold deps_of, dependencies_remove. rewrite lookup_alter.
  destruct (decide (self = r)) as [->|]; [|done].
  destruct (h !! r); simpl; [done|set_solver].
Qed.

Lemma add_dependency_accepted h (self other : ref) :
  validate_dependencies (dependencies_add h self other) self = true →
  add_dependency h self other = dependencies_add h self other.
Proof. intros H. unfold add_dependency. by rewrite H. Qed.

Lemma add_dependency_rejected h (self other : ref) :
  validate_dependencies (dependencies_add h self other) self = false →
  add_dependency h self other
  = dependencies_remove (dependencies_add h self other) self other ∧
  other ∉ deps_of (add_dependency h self other) self.
Proof.
  intros H. unfold add_dependency. rewrite H. split; [done|].
  rewrite deps_of_dependencies_remove, decide_True by done. set_solver.
Qed.

Lemma not_tree_like_rejected h (self : ref) :
  ¬ tree_like h self → validate_dependencies h self = false.
Proof.
  intros Hn. destruct (validate_dependencies h self) eqn:E; [|done].
  exfalso. by apply Hn, validate_dependencies_true.
Qed.

Lemma add_dependency_lookup_is_Some h (self other r : ref) :
  is_Some (add_dependency h self other !! r) ↔ is_Some (h !! r).
Proof.
  unfold add_dependency, dependencies_remove, dependencies_add.
  destruct (validate_dependencies _ _);
    rewrite ?lookup_alter_is_Some; reflexivity.
Qed.

(** C3: [add_dependency(self, other)] leaves [other] among the dependencies
    of [self] exactly when the depth-first walk from [self], over the store
    with the new edge, never pops a node it has seen, in whatever order the
    dependencies are pushed.  So once [A.add_dependency(B)] has gone
    through, [B.add_dependency(A)] is rejected and [A] is no dependency of
    [B] afterwards; and an edge that makes two distinct dependencies of some
    task below [self] share a descendant (a diamond, cyclic or not) is
    rejected too. *)
Theorem add_dependency_kept_iff_walk_clean :
  (∀ h (self other : ref) (t : Task),
     h !! self = Some t →
     other ∈ deps_of (add_dependency h self other) self ↔
     ¬ pops_seen (dependencies_add h self other) self) ∧
  (∀ h (A B : ref) (tB : Task),
     h !! B = Some tB →
     B ∈ deps_of (add_dependency h A B) A →
     validate_dependencies
       (dependencies_add (add_dependency h A B) B A) B = false ∧
     A ∉ deps_of (add_dependency (add_dependency h A B) B A) B) ∧
  (∀ h (self other u x y d : ref),
     reach (dependencies_add h self other) self u →
     x ∈ deps_of (dependencies_add h self other) u →
     y ∈ deps_of (dependencies_add h self other) u →
     x ≠ y →
     reach (dependencies_add h self other) x d →
     reach (dependencies_add h self other) y d →
     validate_dependencies (dependencies_add h self other) self = false ∧
     other ∉ deps_of (add_dependency h self other) self).
Proof.
  split; [|split].
  - intros h self other t Ht.
    destruct (validate_dependencies_true (dependencies_add h self other) self)
      as [_ <-].
    destruct (validate_dependencies (dependencies_add h self other) self)
      eqn:E.
    + rewrite add_dependency_accepted by done.
      rewrite deps_of_dependencies_add, decide_True, Ht by done.
      split; [done|]. intros _. set_solver.
    + destruct (add_dependency_rejected _ _ _ E) as [_ Hout].
      split; [done|]. intros H. by exfalso.
  - intros h A B tB HB HAB.
    set (h1 := add_dependency h A B) in *.
    assert (Hrej :
      validate_dependencies (dependencies_add h1 B A) B = false).
    { apply not_tree_like_rejected. intros Htree.
      destruct (Htree B (rtc_refl _ _)) as [Hnocycle _].
      apply (Hnocycle A).
      - rewrite deps_of_dependencies_add, decide_True by done.
        destruct (add_dependency_lookup_is_Some h A B B) as [_ Hs].
        destruct Hs as [t' Ht']; [by eauto|].
        fold h1 in Ht'. rewrite Ht'. set_solver.
      - destruct (decide (A = B)) as [->|Hne]; [apply rtc_refl|].
        apply rtc_once. unfold dep_edge.
        rewrite deps_of_dependencies_add, decide_False by done. done. }
    split; [done|]. by apply add_dependency_rejected.
  - intros h self other u x y d Hu Hx Hy Hxy Hxd Hyd.
    assert (Hrej :
      validate_dependencies (dependencies_add h self other) self = false).
    { apply not_tree_like_rejected. intros Htree.
      destruct (Htree u Hu) as [_ Hnodiamond].
      by apply (Hnodiamond x y d). }
    split; [done|]. by apply add_dependency_rejected.
Qed.

End Claims.

Section Rollback.

Local Close Scope string_scope.

Implicit Types (h : heap).

(** Where the rollback of [add_dependency] does restore the store: when the
    edge was not there before the call. *)
Lemma add_dependency_rejected_fresh h (self other : ref) :
  other ∉ deps_of h self →
  validate_dependencies (dependencies_add h self other) self = false →
  add_dependency h self other = h.
Proof.
  intros Hfresh Hrej. unfold add_dependency. rewrite Hrej.
  unfold dependencies_remove, dependencies_add.
  apply map_eq. intros r. destruct (decide (self = r)) as [->|Hne].
  - rewrite !lookup_alter_eq. unfold deps_of in Hfresh.
    destruct (h !! r) as [t|]; simpl; [|done].
    f_equal. destruct t as [i ti de c s tg deps p a].
    unfold set_dependencies. simpl in *. f_equal. set_solver.
  - by rewrite !lookup_alter_ne.
Qed.

(** C2, at the input where it fails.  Tasks 0, 1, 2 are created and
    [0.add_dependency(1)], [0.add_dependency(2)], [1.add_dependency(2)] all
    go through: 0 depends on 1 and 2, and 1 on 2.  A further
    [0.add_dependency(1)] is rejected (2 is now met twice from 0), and it
    removes 1, which was a dependency of 0 before the call: the dependency
    set of 0 goes from {1, 2} to {2}. *)
Theorem add_dependency_rejected_drops_present_edge :
  let h := exec_ops three_tasks
             [OpAddDependency 0 1; OpAddDependency 0 2; OpAddDependency 1 2] in
  deps_of h 0 = {[1; 2]} ∧ deps_of h 1 = {[2]} ∧ deps_of h 2 = ∅ ∧
  validate_dependencies (dependencies_add h 0 1) 0 = false ∧
  deps_of (add_dependency h 0 1) 0 = {[2]} ∧
  deps_of (add_dependency h 0 1) 0 ≠ deps_of h 0.
Proof.
  vm_compute. repeat split; try reflexivity. discriminate.
Qed.

End Rollback.

Section StatusMachine.

Local Close Scope string_scope.

Implicit Types (h : heap) (r : ref) (s : Status).

Lemma status_of_alter h (f : Task → Task) (x r : ref) :
  (∀ t, status (f t) = status t) →
  status_of (alter f x h) r = status_of h r.
Proof.
  intros Hf. unfold status_of. rewrite lookup_alter.
  destruct (decide (x = r)) as [->|]; [|done].
  destruct (h !! r); simpl; [by rewrite Hf|done].
Qed.

Lemma status_of_alter_set_status_cases h (x r : ref) s s' :
  status_of h r = Some s →
  status_of (alter (set_status s') x h) r = Some (if decide (x = r) then s' else s).
Proof.
  unfold status_of. rewrite lookup_alter.
  destruct (decide (x = r)) as [->|]; [|done].
  destruct (h !! r); simpl; [done|discriminate].
Qed.

Lemma status_of_add_dependency h (self other r : ref) :
  status_of (add_dependency h self other) r = status_of h r.
Proof.
  unfold add_dependency, dependencies_remove, dependencies_add.
  destruct (validate_dependencies _ _); rewrite !status_of_alter; done.
Qed.

(** One operation: the status stays, or [start_task] made it IN_PROGRESS,
    or [complete_task] took it from IN_PROGRESS to DONE. *)
Lemma exec_op_status h (op : entity_op) r s :
  status_of h r = Some s →
  ∃ s', status_of (exec_op h op) r = Some s' ∧
    (s' = s ∨
     (op = OpStartTask r ∧ can_start h r = true ∧ s' = IN_PROGRESS) ∨
     (op = OpCompleteTask r ∧ s = IN_PROGRESS ∧ s' = DONE)).
Proof.
  intros Hs. destruct op as [self other|self|self|self|self|self p|self a];
    simpl.
  - rewrite status_of_add_dependency. by eauto.
  - by eauto.
  - unfold start_task. destruct (can_start h self) eqn:Hcs; simpl; [|by eauto].
    rewrite (status_of_alter_set_status_cases _ _ _ _ _ Hs).
    destruct (decide (self = r)) as [->|]; by eauto 8.
  - by eauto.
  - unfold complete_task, can_complete.
    destruct (bool_decide_reflect (status_of h self = Some IN_PROGRESS))
      as [Hip|]; simpl; [|by eauto].
    rewrite (status_of_alter_set_status_cases _ _ _ _ _ Hs).
    destruct (decide (self = r)) as [->|]; [|by eauto].
    rewrite Hs in Hip. injection Hip as ->. by eauto 8.
  - unfold set_project. rewrite status_of_alter by done. by eauto.
  - unfold assign. rewrite status_of_alter by done. by eauto.
Qed.

(** C1, as the code has it: an entity method changes a status only in
    [start_task], which sets IN_PROGRESS whenever [can_start] holds and
    whatever the status was (TODO, IN_PROGRESS or DONE), and in
    [complete_task], which moves IN_PROGRESS to DONE.  So no sequence of
    entity operations moves a task that has left TODO back to TODO. *)
Theorem status_changes_by_start_and_complete h r s :
  status_of h r = Some s →
  (∀ op : entity_op,
     ∃ s', status_of (exec_op h op) r = Some s' ∧
       (s' = s ∨
        (op = OpStartTask r ∧ can_start h r = true ∧ s' = IN_PROGRESS) ∨
        (op = OpCompleteTask r ∧ s = IN_PROGRESS ∧ s' = DONE))) ∧
  (∀ ops : list entity_op,
     s ≠ TODO →
     ∃ s', status_of (exec_ops h ops) r = Some s' ∧ s' ≠ TODO).
Proof.
  intros Hs. split; [intros op; by apply exec_op_status|].
  intros ops. revert h s Hs.
  induction ops as [|op ops IH]; intros h s Hs Hne; simpl.
  - by exists s.
  - destruct (exec_op_status h op r s Hs) as (s1 & Hs1 & Hcases).
    apply (IH _ s1 Hs1).
    destruct Hcases as [->|[(_ & _ & ->)|(_ & _ & ->)]]; done.
Qed.

(** C1 as written fails: a task that was assigned, started and completed is
    DONE, and one more [start_task] moves it back to IN_PROGRESS. *)
Lemma done_task_started_again :
  status_of done_task 0 = Some DONE ∧
  fst (start_task done_task 0) = true ∧
  status_of (exec_ops done_task [OpStartTask 0]) 0 = Some IN_PROGRESS.
Proof. vm_compute. repeat split; reflexivity. Qed.

Lemma status_changes_by_start_and_complete_witness :
  status_of done_task 0 = Some DONE ∧
  (∃ s', status_of (exec_ops done_task [OpStartTask 0]) 0 = Some s' ∧
         s' ≠ TODO) ∧
  (∃ s', status_of (exec_op done_task (OpCompleteTask 0)) 0 = Some s' ∧
         (s' = DONE ∨
          (OpCompleteTask 0 = OpStartTask 0 ∧
           can_start done_task 0 = true ∧ s' = IN_PROGRESS) ∨
          (OpCompleteTask 0 = OpCompleteTask 0 ∧
           DONE = IN_PROGRESS ∧ s' = DONE))).
Proof.
  assert (H : status_of done_task 0 = Some DONE) by (vm_compute; reflexivity).
  split; [exact H|].
  destruct (status_changes_by_start_and_complete done_task 0 DONE H)
    as [Hop Hops].
  split; [apply Hops; discriminate|apply Hop].
Defined.

End StatusMachine.

Section EntityExamples.

Local Close Scope string_scope.

(** [test_tasks] of [test_entities.py], statement by statement. *)
Example test_tasks :
  let agent_2 := mkAgent (VStr "a2") (VStr "Agent 2") in
  let tasks h := omap (λ r, h !! r) [0; 1] in
  let h1 := add_dependency two_tasks 0 1 in
  let h2 := add_dependency h1 1 0 in
  let h3 := assign h2 1 agent_2 in
  let h4 := snd (start_task h3 0) in
  let h5 := snd (start_task h4 1) in
  let h6 := snd (complete_task h5 1) in
  let h7 := assign h6 0 agent_1 in
  track_statuses (tasks two_tasks) = {[ TODO := 2 ]} ∧
  deps_of h1 0 = {[1]} ∧
  deps_of h2 1 = ∅ ∧
  can_start h2 0 = false ∧ can_start h2 1 = false ∧
  fst (start_task h3 0) = false ∧ fst (start_task h4 1) = true ∧
  track_statuses (tasks h5) = {[ TODO := 1; IN_PROGRESS := 1 ]} ∧
  can_complete h5 0 = false ∧ can_complete h5 1 = true ∧
  fst (complete_task h5 1) = true ∧
  can_start h7 0 = true ∧
  track_statuses (tasks h7) = {[ TODO := 1; DONE := 1 ]}.
Proof.
  vm_compute. repeat split; reflexivity.
Qed.

(** A diamond without a cycle: 1 and 2 both depend on 3, and 0 on 1.  The
    edge from 0 to 2 is refused, although it closes no cycle. *)
Example diamond_rejected :
  let h := exec_ops four_tasks
             [OpAddDependency 1 3; OpAddDependency 2 3; OpAddDependency 0 1] in
  deps_of h 0 = {[1]} ∧ deps_of h 1 = {[3]} ∧ deps_of h 2 = {[3]} ∧
  validate_dependencies (dependencies_add h 0 2) 0 = false ∧
  add_dependency h 0 2 = h.
Proof. vm_compute. repeat split; reflexivity. Qed.

End EntityExamples.

(** * Facts about the use cases *)

Section UseCaseFacts.

Import UseCases.

Context {W : Type}.

Implicit Types (w : W) (e : exn).

Lemma no_raise_ret {A : Type} (a : A) : no_raise (W:=W) (ret a).
Proof. intros w. by exists a, w. Qed.

Lemma no_raise_bind {A B : Type} (m : M W A) (k : A → M W B) :
  no_raise m → (∀ a, no_raise (k a)) → no_raise (bind m k).
Proof.
  intros Hm Hk w. destruct (Hm w) as (a & w' & Hw).
  unfold bind. rewrite Hw. apply Hk.
Qed.

Lemma isinstance_Exception e :
  derives_from_Exception (exn_cls e) = true → isinstance e ExceptionC = true.
Proof.
  intros Hd. unfold isinstance. rewrite Hd.
  rewrite (bool_decide_eq_true_2 (ExceptionC = ExceptionC)) by done.
  by rewrite orb_true_r.
Qed.

Lemma reportable_mkExn (c : exn_class) (msg : string) :
  derives_from_Exception c = true → reportable (mkExn c msg).
Proof. intros Hc. split; [exact Hc|by exists msg]. Qed.

(** What the interpreter and the entities raise in the operations of the
    use cases is reportable. *)
Lemma py_getitem_reportable (v : pyval) (key : string) e :
  py_getitem v key = Exc e → reportable e.
Proof.
  destruct v; simpl; try (intros [= <-]; by apply reportable_mkExn).
  destruct (dict_lookup key d); [done|].
  intros [= <-]. by apply reportable_mkExn.
Qed.

Lemma py_get_reportable (v : pyval) (key : string) (dflt : pyval) e :
  py_get v key dflt = Exc e → reportable e.
Proof.
  destruct v; simpl; try (intros [= <-]; by apply reportable_mkExn).
  by destruct (dict_lookup key d).
Qed.

Lemma py_iter_reportable (v : pyval) e :
  py_iter v = Exc e → reportable e.
Proof.
  destruct v; simpl; try done; intros [= <-]; by apply reportable_mkExn.
Qed.

Lemma Tag_getitem_reportable (v : pyval) e :
  Tag_getitem v = Exc e → reportable e.
Proof.
  destruct v; simpl; try (intros [= <-]; by apply reportable_mkExn).
  destruct (Tag_lookup s); [done|]. intros [= <-]. by apply reportable_mkExn.
Qed.

Lemma Status_getitem_reportable (v : pyval) e :
  Status_getitem v = Exc e → reportable e.
Proof.
  destruct v; simpl; try (intros [= <-]; by apply reportable_mkExn).
  destruct (Status_lookup s); [done|].
  intros [= <-]. by apply reportable_mkExn.
Qed.

Lemma Task_init_reportable (id title description cost : pyval)
  (status : Status) (tags : list Tag) e :
  Task_init id title description cost status tags = Exc e → reportable e.
Proof.
  unfold Task_init.
  destruct cost; try (intros [= <-]; by apply reportable_mkExn).
  destruct (z <? 1)%Z; [|done]. intros [= <-]. by apply reportable_mkExn.
Qed.

Lemma comprehension_reportable {A B : Type} (f : A → result B)
  (l : list A) e :
  (∀ x e', f x = Exc e' → reportable e') →
  comprehension f l = Exc e → reportable e.
Proof.
  intros Hf. induction l as [|x l IH]; simpl; [done|].
  destruct (f x) as [y|e'] eqn:Hx; simpl.
  - destruct (comprehension f l) as [ys|e'']; simpl; [done|].
    intros [= <-]. by apply IH.
  - intros [= <-]. by eapply Hf.
Qed.

Lemma raises_reportable_ret {A : Type} (a : A) :
  raises_reportable (W:=W) (ret a).
Proof. by intros w e w'. Qed.

Lemma raises_reportable_lift {A : Type} (r : result A) :
  (∀ e, r = Exc e → reportable e) → raises_reportable (W:=W) (lift r).
Proof. intros Hr w e w' [= Heq _]. by apply Hr. Qed.

Lemma raises_reportable_bind {A B : Type} (m : M W A) (k : A → M W B) :
  raises_reportable m → (∀ a, raises_reportable (k a)) →
  raises_reportable (bind m k).
Proof.
  intros Hm Hk w e w'. unfold bind.
  destruct (m w) as [[a|e'] w1] eqn:E.
  - apply Hk.
  - intros [= <- _]. by eapply Hm.
Qed.

(** A handler that reports the exception in a failure does not raise when
    the text of the exception can be had. *)
Lemma no_raise_report {A : Type} (prefix : string) (wrap : Result → A) e :
  reportable e →
  no_raise (W:=W)
    (bind (lift (py_str e)) (λ text, ret (wrap (Failure (prefix ++ text))))).
Proof.
  intros [_ [text Ht]] w. unfold bind, lift. rewrite Ht. by eexists _, _.
Qed.

(** A [try] with an [except Exception] clause does not raise, as long as
    its body raises nothing but reportable exceptions and the handler copes
    with those. *)
Lemma no_raise_try_except {A : Type} (body : M W A) (k : exn → M W A) :
  raises_reportable body →
  (∀ e, reportable e → no_raise (k e)) →
  no_raise (try_except body [(ExceptionC, k)]).
Proof.
  intros Hb Hk w. unfold try_except.
  destruct (body w) as [[a|e] w'] eqn:E; [by exists a, w'|].
  assert (reportable e) as He by (by eapply Hb).
  simpl. rewrite isinstance_Exception by apply He. by apply Hk.
Qed.

Lemma no_raise_try_except_two {A : Type} (body : M W A)
  (k1 k2 : exn → M W A) :
  raises_reportable body →
  (∀ e, reportable e → no_raise (k1 e)) →
  (∀ e, reportable e → no_raise (k2 e)) →
  no_raise (try_except body [(ValueErrorC, k1); (ExceptionC, k2)]).
Proof.
  intros Hb H1 H2 w. unfold try_except.
  destruct (body w) as [[a|e] w'] eqn:E; [by exists a, w'|].
  assert (reportable e) as He by (by eapply Hb).
  simpl. destruct (isinstance e ValueErrorC); [by apply H1|].
  rewrite isinstance_Exception by apply He. by apply H2.
Qed.

Lemma no_raise_create_task (repository : Repository W) title description
  cost tags :
  well_behaved repository →
  no_raise (create_task repository title description cost tags).
Proof.
  intros [Hadd _]. unfold create_task. apply no_raise_bind.
  - apply no_raise_try_except_two.
    + apply raises_reportable_bind; [|intros; apply raises_reportable_ret].
      apply raises_reportable_lift. intros e.
      destruct (comprehension Tag_getitem (map VStr tags)) as [tags'|e']
        eqn:Hc; cbn [result_bind].
      * apply Task_init_reportable.
      * intros [= <-]. eapply comprehension_reportable; [|exact Hc].
        apply Tag_getitem_reportable.
    + intros e He. by apply (no_raise_report _ (Returned _)).
    + intros e He. by apply (no_raise_report _ (Returned _)).
  - intros [task|r]; [|apply no_raise_ret].
    apply no_raise_bind.
    + apply no_raise_try_except.
      * apply raises_reportable_bind; [apply Hadd|].
        intros; apply raises_reportable_ret.
      * intros e He. by apply (no_raise_report _ (Returned _)).
    + intros [?|?]; apply no_raise_ret.
Qed.

Lemma no_raise_create_agent (repository : Repository W) name :
  well_behaved repository → no_raise (create_agent repository name).
Proof.
  intros [Hadd _]. unfold create_agent. apply no_raise_bind.
  - apply no_raise_try_except; [apply raises_reportable_ret|].
    intros e He. by apply (no_raise_report _ (Returned _)).
  - intros [agent|r]; [|apply no_raise_ret].
    apply no_raise_bind.
    + apply no_raise_try_except.
      * apply raises_reportable_bind; [apply Hadd|].
        intros; apply raises_reportable_ret.
      * intros e He. by apply (no_raise_report _ (Returned _)).
    + intros [?|?]; apply no_raise_ret.
Qed.

Lemma no_raise_get_task (repository : Repository W) task_id :
  well_behaved repository → no_raise (get_task repository task_id).
Proof.
  intros [_ Hget]. unfold get_task. apply no_raise_try_except.
  - apply raises_reportable_bind; [apply Hget|].
    intros task. destruct (is_None task); apply raises_reportable_ret.
  - intros e He. by apply (no_raise_report _ id).
Qed.

Lemma no_raise_get_agent (repository : Repository W) agent_id :
  well_behaved repository → no_raise (get_agent repository agent_id).
Proof.
  intros [_ Hget]. unfold get_agent. apply no_raise_try_except.
  - apply raises_reportable_bind; [apply Hget|].
    intros agent. destruct (is_None agent); apply raises_reportable_ret.
  - intros e He. by apply (no_raise_report _ id).
Qed.

Lemma no_raise_assign_task (task_repo agent_repo : Repository W)
  task_id agent_id :
  well_behaved task_repo → well_behaved agent_repo →
  no_raise (assign_task task_repo agent_repo task_id agent_id).
Proof.
  intros [Hadd Hget] [_ Hget']. unfold assign_task.
  apply no_raise_try_except; [|intros e He; by apply (no_raise_report _ id)].
  apply raises_reportable_bind; [apply Hget|]. intros task.
  destruct (is_None task); [apply raises_reportable_ret|].
  apply raises_reportable_bind; [apply Hget'|]. intros agent.
  destruct (is_None agent); [apply raises_reportable_ret|].
  apply raises_reportable_bind;
    [apply raises_reportable_lift, py_getitem_reportable|intros title].
  apply raises_reportable_bind;
    [apply raises_reportable_lift, py_get_reportable|intros description].
  apply raises_reportable_bind;
    [apply raises_reportable_lift, py_get_reportable|intros cost].
  apply raises_reportable_bind;
    [apply raises_reportable_lift, py_get_reportable|intros tag_names].
  apply raises_reportable_bind; [|intros tags].
  { apply raises_reportable_lift. intros e.
    destruct (py_iter tag_names) as [l|e'] eqn:Hi; simpl.
    - intros Hc. eapply comprehension_reportable; [|exact Hc].
      apply Tag_getitem_reportable.
    - intros [= <-]. by eapply py_iter_reportable. }
  apply raises_reportable_bind;
    [apply raises_reportable_lift, py_get_reportable|intros status_name].
  apply raises_reportable_bind;
    [apply raises_reportable_lift, Status_getitem_reportable|intros status].
  apply raises_reportable_bind;
    [apply raises_reportable_lift, Task_init_reportable|intros task_entity].
  apply raises_reportable_bind;
    [apply raises_reportable_lift, py_getitem_reportable|intros name].
  apply raises_reportable_bind; [apply Hadd|].
  intros; apply raises_reportable_ret.
Qed.

Lemma Success_or_Failure (r : Result) :
  (∃ value, r = Success value) ∨ (∃ error, r = Failure error).
Proof. destruct r; eauto. Qed.

(** C5, as the code has it: when what the repositories raise derives from
    [Exception] and can be turned into text by [str] (whatever else they do:
    return any value, a malformed record included, or change their state),
    each of the five use cases returns a [Result], a [Success] or a
    [Failure], and raises nothing. *)
Theorem use_cases_return_Result (task_repo agent_repo : Repository W) :
  well_behaved task_repo → well_behaved agent_repo →
  (∀ title description cost tags,
     returns_Result (create_task task_repo title description cost tags)) ∧
  (∀ name, returns_Result (create_agent agent_repo name)) ∧
  (∀ task_id, returns_Result (get_task task_repo task_id)) ∧
  (∀ agent_id, returns_Result (get_agent agent_repo agent_id)) ∧
  (∀ task_id agent_id,
     returns_Result (assign_task task_repo agent_repo task_id agent_id)).
Proof.
  intros Htask Hagent.
  assert (H : ∀ m : M W Result, no_raise m → returns_Result m).
  { intros m Hm w. destruct (Hm w) as (r & w' & Hr).
    exists r, w'. split; [done|apply Success_or_Failure]. }
  repeat split; intros; apply H.
  - by apply no_raise_create_task.
  - by apply no_raise_create_agent.
  - by apply no_raise_get_task.
  - by apply no_raise_get_agent.
  - by apply no_raise_assign_task.
Qed.

End UseCaseFacts.

Section UseCaseEscapes.

Import UseCases.

Lemma well_behaved_abstract_repository : well_behaved abstract_repository.
Proof.
  split; intros x w e w' [= <- _]; by apply reportable_mkExn.
Qed.

(** The in-memory repositories of the tests raise nothing but the
    [TypeError] of an item assignment on a record that is no dict. *)
Lemma well_behaved_memory_repositories :
  well_behaved MemoryTaskRepository ∧ well_behaved MemoryAgentRepository.
Proof.
  assert (Hadd : ∀ key record st e st',
            memory_add key record st = (Exc e, st') → reportable e).
  { intros key record st e st'. unfold memory_add, py_setitem.
    destruct record; intros [= <- _]; by apply reportable_mkExn. }
  split; (split; [|by intros id w e w' [=]]).
  - intros record [st st2] e w'. simpl.
    destruct (memory_add _ _ _) as [r st'] eqn:E. intros [= -> _].
    by eapply Hadd.
  - intros record [st1 st] e w'. simpl.
    destruct (memory_add _ _ _) as [r st'] eqn:E. intros [= -> _].
    by eapply Hadd.
Qed.

Lemma use_cases_return_Result_witness :
  returns_Result (get_task abstract_repository "999") ∧
  returns_Result
    (assign_task abstract_repository abstract_repository "1" "1") ∧
  returns_Result
    (create_task MemoryTaskRepository (VStr "Test Task") (VStr "A test task")
       5 ["MEDIUM_PRIORITY"]) ∧
  returns_Result
    (assign_task MemoryTaskRepository MemoryAgentRepository "1" "1").
Proof.
  destruct (use_cases_return_Result abstract_repository abstract_repository
              well_behaved_abstract_repository
              well_behaved_abstract_repository)
    as (_ & _ & Hget & _ & Hassign).
  destruct (use_cases_return_Result MemoryTaskRepository
              MemoryAgentRepository
              (proj1 well_behaved_memory_repositories)
              (proj2 well_behaved_memory_repositories))
    as (Hcreate & _ & _ & _ & Hassign').
  split; [apply Hget|]. split; [apply Hassign|].
  split; [apply Hcreate|apply Hassign'].
Defined.

(** C5 as written fails: a repository that raises [SystemExit] takes every
    use case down with it, [except Exception] lets it through; and so does
    one that raises an exception whose [__str__] raises, from inside the
    handler. *)
Lemma repository_exception_escapes :
  get_task exiting_repository "999" tt = (Exc (mkExn SystemExitC ""), tt) ∧
  get_agent exiting_repository "999" tt = (Exc (mkExn SystemExitC ""), tt) ∧
  create_agent exiting_repository (VStr "agent_123") tt
  = (Exc (mkExn SystemExitC ""), tt) ∧
  create_task exiting_repository (VStr "Test Task") (VStr "") 5
    ["LOW_PRIORITY"] tt
  = (Exc (mkExn SystemExitC ""), tt) ∧
  assign_task exiting_repository exiting_repository "1" "1" tt
  = (Exc (mkExn SystemExitC ""), tt) ∧
  get_task unprintable_repository "999" tt
  = (Exc (mkExn TypeErrorC "__str__ failed"), tt) ∧
  ¬ returns_Result (get_task exiting_repository "999").
Proof.
  repeat split; try reflexivity.
  intros H. destruct (H tt) as (r & w' & Hr & _). discriminate Hr.
Qed.

End UseCaseEscapes.

Section CreateTaskFailures.

Import UseCases.

Context {W : Type}.

Lemma Tag_lookup_Some (name : string) :
  is_Some (Tag_lookup name) ↔ name ∈ tag_names.
Proof.
  unfold Tag_lookup, tag_names. rewrite !elem_of_cons, elem_of_nil.
  destruct (String.eqb_spec name "HIGH_PRIORITY") as [->|H1];
    [split; eauto|].
  destruct (String.eqb_spec name "MEDIUM_PRIORITY") as [->|H2];
    [split; eauto|].
  destruct (String.eqb_spec name "LOW_PRIORITY") as [->|H3];
    [split; eauto|].
  split; [by intros [? ?]|]. intros [?|[?|[?|[]]]]; done.
Qed.

Lemma comprehension_known_tags (tags : list string) :
  Forall (λ name, name ∈ tag_names) tags →
  ∃ tags', comprehension Tag_getitem (map VStr tags) = Val tags'.
Proof.
  induction 1 as [|name tags Hname _ IH]; simpl; [by eauto|].
  apply Tag_lookup_Some in Hname as [t Ht]. rewrite Ht. simpl.
  destruct IH as [tags' ->]. simpl. by eauto.
Qed.

Lemma comprehension_unknown_tag (tags : list string) :
  Exists (λ name, name ∉ tag_names) tags →
  ∃ name, name ∈ tags ∧ (name ∉ tag_names) ∧
    (comprehension Tag_getitem (map VStr tags)
     = Exc (mkExn KeyErrorC (py_repr_str name))).
Proof.
  induction tags as [|name tags IH]; intros Hex.
  { by apply Exists_nil in Hex. }
  simpl. destruct (Tag_lookup name) as [t|] eqn:Ht; simpl.
  - apply Exists_cons in Hex as [Hbad|Hex].
    { exfalso. apply Hbad, Tag_lookup_Some. by eauto. }
    destruct (IH Hex) as (bad & Hin & Hbad & ->).
    exists bad. split; [by apply list_elem_of_further|]. by split.
  - exists name. split; [apply list_elem_of_here|]. split; [|done].
    intros Hin. apply Tag_lookup_Some in Hin as [? ?]. congruence.
Qed.

Lemma prefix_app (p s : string) : String.prefix p (p ++ s) = true.
Proof.
  induction p as [|c p IH]; simpl; [by destruct s|].
  destruct (Ascii.ascii_dec c c); [exact IH|done].
Qed.

(** C6: with a cost below 1 and tag names that are all members of [Tag],
    [create_task] returns the failure "Enterprise rule violation: Cost must
    be at least 1", whose message contains "Enterprise rule violation"; it
    returns no [Success] and does not call the repository. *)
Theorem create_task_cost_below_one (repository : Repository W)
  (title description : pyval) (cost : Z) (tags : list string) (w : W) :
  (cost < 1)%Z →
  Forall (λ name, name ∈ tag_names) tags →
  ∃ error,
    create_task repository title description cost tags w
    = (Val (Failure error), w) ∧
    error = "Enterprise rule violation: Cost must be at least 1" ∧
    str_contains "Enterprise rule violation" error = true ∧
    (∀ tags', Task_init VNone title description (VInt cost) TODO tags'
              = Exc (mkExn ValueErrorC "Cost must be at least 1")).
Proof.
  intros Hcost Htags.
  assert (Hinit : ∀ tags', Task_init VNone title description (VInt cost) TODO tags'
              = Exc (mkExn ValueErrorC "Cost must be at least 1")).
  { intros tags'. unfold Task_init.
    destruct (Z.ltb_spec cost 1); [done|lia]. }
  destruct (comprehension_known_tags tags Htags) as [tags' Hc].
  eexists. split; [|split; [reflexivity|split; [reflexivity|exact Hinit]]].
  unfold create_task, bind, try_except, lift. rewrite Hc.
  cbn [result_bind]. rewrite Hinit. reflexivity.
Qed.

(** C10: when some tag name is no member of [Tag], [create_task] returns a
    failure whose message starts with "Unexpected enterprise error: " and
    not with "Enterprise rule violation: ", whatever the cost: the name
    lookup raises before the constructor, with its cost check, is called. *)
Theorem create_task_unknown_tag (repository : Repository W)
  (title description : pyval) (cost : Z) (tags : list string) (w : W) :
  Exists (λ name, name ∉ tag_names) tags →
  ∃ error,
    create_task repository title description cost tags w
    = (Val (Failure error), w) ∧
    String.prefix "Unexpected enterprise error: " error = true ∧
    String.prefix "Enterprise rule violation: " error = false.
Proof.
  intros Hex.
  destruct (comprehension_unknown_tag tags Hex) as (bad & _ & _ & Hc).
  eexists. split; [|split].
  - unfold create_task, bind, try_except, lift. rewrite Hc. simpl.
    reflexivity.
  - apply prefix_app.
  - reflexivity.
Qed.

End CreateTaskFailures.

Section CreateTaskExamples.

Import UseCases.

Lemma create_task_cost_below_one_witness :
  ∃ error,
    create_task abstract_repository (VStr "Invalid Task")
      (VStr "This task has invalid cost") 0 ["LOW_PRIORITY"] tt
    = (Val (Failure error), tt) ∧
    error = "Enterprise rule violation: Cost must be at least 1" ∧
    str_contains "Enterprise rule violation" error = true ∧
    (∀ tags', Task_init VNone (VStr "Invalid Task")
                (VStr "This task has invalid cost") (VInt 0) TODO tags'
              = Exc (mkExn ValueErrorC "Cost must be at least 1")).
Proof.
  apply create_task_cost_below_one; [lia|].
  apply Forall_cons. split; [|by apply Forall_nil].
  unfold tag_names. do 2 apply list_elem_of_further. apply list_elem_of_here.
Defined.

Lemma create_task_unknown_tag_witness :
  ∃ error,
    create_task abstract_repository (VStr "Tagged") (VStr "") 0
      ["LOW_PRIORITY"; "URGENT"] tt
    = (Val (Failure error), tt) ∧
    String.prefix "Unexpected enterprise error: " error = true ∧
    String.prefix "Enterprise rule violation: " error = false.
Proof.
  apply create_task_unknown_tag.
  apply Exists_cons_tl, Exists_cons_hd. unfold tag_names. intros H.
  repeat (apply elem_of_cons in H as [H|H]; [discriminate H|]).
  by apply elem_of_nil in H.
Defined.

(** The tests of [test_use_cases.py], run on the in-memory repositories. *)
Example test_create_task :
  fst (create_task MemoryTaskRepository (VStr "Test Task")
         (VStr "A test task") 5 ["MEDIUM_PRIORITY"] ([], []))
  = Val (Success (VDict [ ("title", VStr "Test Task");
                          ("description", VStr "A test task");
                          ("cost", VInt 5);
                          ("tags", VList [VStr "MEDIUM_PRIORITY"]);
                          ("status", VStr "TODO");
                          ("task_id", VStr "1") ])).
Proof. vm_compute. reflexivity. Qed.

Example test_create_task_invalid_cost :
  create_task MemoryTaskRepository (VStr "Invalid Task")
    (VStr "This task has invalid cost") 0 ["LOW_PRIORITY"] ([], [])
  = (Val (Failure "Enterprise rule violation: Cost must be at least 1"),
     ([], [])).
Proof. vm_compute. reflexivity. Qed.

Example test_get_nonexistent_task :
  get_task MemoryTaskRepository "999" ([], [])
  = (Val (Failure "Task not found"), ([], [])).
Proof. vm_compute. reflexivity. Qed.

Example test_assign_task :
  let w1 := snd (create_task MemoryTaskRepository (VStr "Assignable Task")
                   (VStr "A task to be assigned") 3 ["LOW_PRIORITY"]
                   ([], [])) in
  let w2 := snd (create_agent MemoryAgentRepository (VStr "agent_123") w1) in
  ∃ record,
    fst (assign_task MemoryTaskRepository MemoryAgentRepository "1" "1" w2)
    = Val (Success record) ∧
    py_getitem record "assignee" = Val (VStr "1") ∧
    py_getitem record "cost" = Val (VInt 3).
Proof. vm_compute. eexists. repeat split; reflexivity. Qed.

(** A stored record that is no dict, or lacks its title, or holds a cost
    below 1, comes back from [assign_task] as a failure. *)
Example assign_task_malformed_records :
  let repo (task : pyval) : Repository unit :=
    mkRepository (λ r, ret r) (λ _, ret task) (ret []) in
  fst (assign_task (repo (VObj "Task")) (repo (VDict [])) "1" "1" tt)
  = Val (Failure "Unexpected adapter error: object is not subscriptable") ∧
  fst (assign_task (repo (VDict [])) (repo (VDict [])) "1" "1" tt)
  = Val (Failure "Unexpected adapter error: 'title'") ∧
  fst (assign_task (repo (VDict [("title", VStr "t"); ("cost", VInt 0)]))
         (repo (VDict [("name", VStr "a")])) "1" "1" tt)
  = Val (Failure "Unexpected adapter error: Cost must be at least 1").
Proof. vm_compute. repeat split; reflexivity. Qed.

End CreateTaskExamples.
(** * Further facts about the entities *)

Section MoreTaskMethods.

Local Close Scope string_scope.

Implicit Types (h : heap) (self r : ref) (t : Task) (s : Status).

(** X1: [complete_task] goes through exactly from IN_PROGRESS, and then the
    status is DONE; from TODO or DONE it returns false and leaves the store
    alone.  A second call right after the first is always refused. *)
Theorem complete_task_only_from_in_progress h self s :
  status_of h self = Some s →
  (s = IN_PROGRESS →
   complete_task h self = (true, alter (set_status DONE) self h) ∧
   status_of (snd (complete_task h self)) self = Some DONE) ∧
  (s ≠ IN_PROGRESS → complete_task h self = (false, h)) ∧
  complete_task (snd (complete_task h self)) self
  = (false, snd (complete_task h self)).
Proof.
  intros Hs.
  assert (Hyes : s = IN_PROGRESS →
    complete_task h self = (true, alter (set_status DONE) self h) ∧
    status_of (snd (complete_task h self)) self = Some DONE).
  { intros ->. unfold complete_task, can_complete.
    rewrite bool_decide_eq_true_2 by done. simpl. split; [done|].
    rewrite (status_of_alter_set_status_cases _ _ _ _ _ Hs).
    by rewrite decide_True. }
  assert (Hno : ∀ h' s', status_of h' self = Some s' → s' ≠ IN_PROGRESS →
                         complete_task h' self = (false, h')).
  { intros h' s' Hs' Hne. unfold complete_task, can_complete.
    rewrite bool_decide_eq_false_2; [done|]. rewrite Hs'. congruence. }
  split; [exact Hyes|]. split; [by apply Hno|].
  destruct (decide (s = IN_PROGRESS)) as [Heq|Hne].
  - destruct (Hyes Heq) as [_ Hdone]. by apply (Hno _ DONE).
  - rewrite (Hno h s Hs Hne). simpl. by apply (Hno h s).
Qed.

Lemma complete_task_only_from_in_progress_witness :
  status_of done_task 0 = Some DONE ∧
  complete_task done_task 0 = (false, done_task).
Proof.
  assert (H : status_of done_task 0 = Some DONE) by (vm_compute; reflexivity).
  split; [exact H|].
  destruct (complete_task_only_from_in_progress done_task 0 DONE H)
    as (_ & Hno & _).
  apply Hno. discriminate.
Defined.

(** What one operation does to the task it is called on, and to the
    others. *)
Lemma exec_op_lookup h (op : entity_op) r :
  exec_op h op !! r =
  if decide (op_self op = r) then
    match h !! r with
    | None => None
    | Some t =>
        Some
          match op with
          | OpAddDependency _ task =>
              set_dependencies (deps_of (add_dependency h r task) r) t
          | OpStartTask _ =>
              if can_start h r then set_status IN_PROGRESS t else t
          | OpCompleteTask _ =>
              if can_complete h r then set_status DONE t else t
          | OpSetProject _ p => set_project_field (Some p) t
          | OpAssign _ a => set_assignee (Some a) t
          | OpCanStart _ | OpCanComplete _ => t
          end
    end
  else h !! r.
Proof.
  destruct op as [self task|self|self|self|self|self p|self a]; simpl.
  - destruct (decide (self = r)) as [->|Hne].
    + unfold deps_of.
      unfold add_dependency, dependencies_remove, dependencies_add.
      destruct (validate_dependencies _ _);
        rewrite !lookup_alter_eq; by destruct (h !! r).
    + unfold add_dependency, dependencies_remove, dependencies_add.
      destruct (validate_dependencies _ _);
        by rewrite !lookup_alter_ne.
  - destruct (decide (self = r)) as [->|]; [|done].
    destruct (h !! r) as [[]|]; done.
  - unfold start_task. destruct (decide (self = r)) as [->|Hne].
    + destruct (can_start h r); simpl; rewrite ?lookup_alter_eq;
        destruct (h !! r) as [[]|]; done.
    + destruct (can_start h self); simpl; rewrite ?lookup_alter_ne; done.
  - destruct (decide (self = r)) as [->|]; [|done].
    destruct (h !! r) as [[]|]; done.
  - unfold complete_task. destruct (decide (self = r)) as [->|Hne].
    + destruct (can_complete h r); simpl; rewrite ?lookup_alter_eq;
        destruct (h !! r) as [[]|]; done.
    + destruct (can_complete h self); simpl; rewrite ?lookup_alter_ne; done.
  - unfold set_project. destruct (decide (self = r)) as [->|Hne].
    + rewrite lookup_alter_eq. by destruct (h !! r).
    + by rewrite lookup_alter_ne.
  - unfold assign. destruct (decide (self = r)) as [->|Hne].
    + rewrite lookup_alter_eq. by destruct (h !! r).
    + by rewrite lookup_alter_ne.
Qed.

Lemma exec_op_fields h (op : entity_op) r t :
  h !! r = Some t →
  ∃ t', exec_op h op !! r = Some t' ∧
        task_id t' = task_id t ∧ title t' = title t ∧
        description t' = description t ∧ cost t' = cost t ∧
        tags t' = tags t.
Proof.
  intros Ht. rewrite exec_op_lookup, Ht.
  destruct (decide (op_self op = r)); [|by eauto 10].
  eexists. split; [done|].
  destruct op; simpl; try destruct (can_start _ _);
    try destruct (can_complete _ _); done.
Qed.

(** X2: An entity method touches only the task it is called on, creates and
    deletes no task, and on its own task leaves the identifier, title,
    description, cost and tags alone; the dependency set changes only under
    [add_dependency], the status only under [start_task] and
    [complete_task], the assignee only under [assign] and the project only
    under [set_project]. *)
Theorem exec_op_frame h (op : entity_op) :
  (∀ r, r ≠ op_self op → exec_op h op !! r = h !! r) ∧
  dom (exec_op h op) = dom h ∧
  (∀ t, h !! op_self op = Some t →
     ∃ t', exec_op h op !! op_self op = Some t' ∧
       task_id t' = task_id t ∧ title t' = title t ∧
       description t' = description t ∧ cost t' = cost t ∧
       tags t' = tags t ∧
       (dependencies t' = dependencies t ∨
        ∃ task, op = OpAddDependency (op_self op) task) ∧
       (status t' = status t ∨ op = OpStartTask (op_self op) ∨
        op = OpCompleteTask (op_self op)) ∧
       (assignee t' = assignee t ∨ ∃ a, op = OpAssign (op_self op) a) ∧
       (project t' = project t ∨ ∃ p, op = OpSetProject (op_self op) p)).
Proof.
  split; [|split].
  - intros r Hne. rewrite exec_op_lookup, decide_False; done.
  - apply set_eq. intros r. rewrite !elem_of_dom, exec_op_lookup.
    destruct (decide (op_self op = r)); [|done].
    destruct (h !! r); split; intros [? ?]; by eauto.
  - intros t Ht. rewrite exec_op_lookup, decide_True, Ht by done.
    eexists. split; [done|].
    destruct op as [self task|self|self|self|self|self p|self a]; simpl;
      try destruct (can_start _ _); try destruct (can_complete _ _);
      repeat split; eauto.
Qed.

Lemma exec_op_costs_valid h (op : entity_op) :
  costs_valid h → costs_valid (exec_op h op).
Proof.
  intros Hv r t' Ht'.
  destruct (h !! r) as [t|] eqn:Ht.
  - destruct (exec_op_fields h op r t Ht) as (t'' & Ht'' & _ & _ & _ & Hc & _).
    rewrite Ht' in Ht''. injection Ht'' as <-. rewrite Hc. by eapply Hv.
  - rewrite exec_op_lookup, Ht in Ht'. by destruct (decide _).
Qed.

(** X3: The constructor lets through only costs of at least 1, and no method
    writes a cost: a store of tasks with valid costs keeps them valid under
    any sequence of entity operations. *)
Theorem exec_ops_costs_valid h (ops : list entity_op) :
  costs_valid h → costs_valid (exec_ops h ops).
Proof.
  revert h. induction ops as [|op ops IH]; intros h Hv; [done|].
  simpl. by apply IH, exec_op_costs_valid.
Qed.

Lemma exec_ops_costs_valid_witness :
  costs_valid three_tasks ∧
  costs_valid (exec_ops three_tasks
                 [OpAddDependency 0 1; OpAssign 1 agent_1; OpStartTask 1]).
Proof.
  assert (H : costs_valid three_tasks).
  { intros r t Ht. unfold three_tasks in Ht.
    repeat (apply lookup_insert_Some in Ht as [[_ <-]|[_ Ht]]; [done|]).
    apply lookup_singleton_Some in Ht as [_ <-]. done. }
  split; [exact H|]. by apply exec_ops_costs_valid.
Defined.

End MoreTaskMethods.

Section MoreDependencies.

Local Close Scope string_scope.

Implicit Types (h : heap) (self task r : ref).

Lemma deps_of_add_dependency h self task r :
  deps_of (add_dependency h self task) r =
  if decide (self = r) then
    if validate_dependencies (dependencies_add h self task) self
    then deps_of (dependencies_add h self task) self
    else deps_of h self ∖ {[task]}
  else deps_of h r.
Proof.
  unfold add_dependency.
  destruct (validate_dependencies _ _) eqn:E.
  - destruct (decide (self = r)) as [->|Hne]; [done|].
    by rewrite deps_of_dependencies_add, decide_False.
  - rewrite deps_of_dependencies_remove.
    destruct (decide (self = r)) as [->|Hne].
    + rewrite deps_of_dependencies_add, decide_True by done.
      unfold deps_of. destruct (h !! r); set_solver.
    + by rewrite deps_of_dependencies_add, decide_False.
Qed.

(** X4: [add_dependency(self, task)] on a task [self] of the store changes
    the dependency set of [self] by [task] alone, and which way is decided by
    the verdict of [validate_dependencies(self)] on the store with the new
    edge: when the verdict is [True] the set is the old one with [task]
    added, when it is [False] the set is the old one with [task] taken out.
    So [task] is a dependency of [self] afterwards exactly when the walk
    accepted it.  Every other dependency of [self], and every other task's
    set, is as before. *)
Theorem add_dependency_changes_one_edge h self task :
  is_Some (h !! self) →
  deps_of (add_dependency h self task) self =
    (if validate_dependencies (dependencies_add h self task) self
     then {[task]} ∪ deps_of h self
     else deps_of h self ∖ {[task]}) ∧
  (task ∈ deps_of (add_dependency h self task) self ↔
   validate_dependencies (dependencies_add h self task) self = true) ∧
  (∀ x, x ≠ task →
     x ∈ deps_of (add_dependency h self task) self ↔ x ∈ deps_of h self) ∧
  (∀ r, r ≠ self → deps_of (add_dependency h self task) r = deps_of h r).
Proof.
  intros [t Ht].
  assert (Hdeps :
    deps_of (add_dependency h self task) self =
      (if validate_dependencies (dependencies_add h self task) self
       then {[task]} ∪ deps_of h self
       else deps_of h self ∖ {[task]})).
  { rewrite deps_of_add_dependency, decide_True by done.
    destruct (validate_dependencies _ _); [|done].
    rewrite deps_of_dependencies_add, decide_True by done.
    unfold deps_of. by rewrite Ht. }
  split; [exact Hdeps|]. split; [|split].
  - rewrite Hdeps. destruct (validate_dependencies _ _); set_solver.
  - intros x Hx. rewrite Hdeps.
    destruct (validate_dependencies _ _); set_solver.
  - intros r Hr. by rewrite deps_of_add_dependency, decide_False.
Qed.

Lemma add_dependency_changes_one_edge_witness :
  is_Some (two_tasks !! 0) ∧
  (1 ∈ deps_of (add_dependency two_tasks 0 1) 0 ↔
   validate_dependencies (dependencies_add two_tasks 0 1) 0 = true) ∧
  is_Some (add_dependency two_tasks 0 1 !! 1) ∧
  (0 ∈ deps_of (add_dependency (add_dependency two_tasks 0 1) 1 0) 1 ↔
   validate_dependencies
     (dependencies_add (add_dependency two_tasks 0 1) 1 0) 1 = true).
Proof.
  assert (H0 : is_Some (two_tasks !! 0)).
  { by exists (fresh_task "1" "Task 1"). }
  assert (H1 : is_Some (add_dependency two_tasks 0 1 !! 1)).
  { by exists (fresh_task "2" "Task 2"). }
  split; [exact H0|]. split.
  { exact (proj1 (proj2 (add_dependency_changes_one_edge two_tasks 0 1 H0))). }
  split; [exact H1|].
  exact (proj1 (proj2 (add_dependency_changes_one_edge
                         (add_dependency two_tasks 0 1) 1 0 H1))).
Defined.

(** X5: A task is never made a dependency of itself. *)
Theorem add_dependency_self_rejected h self :
  self ∉ deps_of (add_dependency h self self) self.
Proof.
  destruct (h !! self) as [t|] eqn:Ht.
  - apply add_dependency_rejected, not_tree_like_rejected. intros Htree.
    destruct (Htree self (rtc_refl _ _)) as [Hnocycle _].
    apply (Hnocycle self); [|apply rtc_refl].
    rewrite deps_of_dependencies_add, decide_True, Ht by done. set_solver.
  - rewrite deps_of_add_dependency, decide_True by done.
    unfold deps_of at 2. rewrite Ht.
    destruct (validate_dependencies _ _); [|set_solver].
    rewrite deps_of_dependencies_add, decide_True, Ht by done. set_solver.
Qed.

Lemma reach_mono h h' x y :
  (∀ a, deps_of h a ⊆ deps_of h' a) → reach h x y → reach h' x y.
Proof.
  intros Hsub. induction 1 as [|a b c Hab _ IH]; [apply rtc_refl|].
  eapply rtc_l; [|exact IH]. by apply Hsub.
Qed.

(** A path in the store with the new edge is a path of the old store or
    goes through [self]. *)
Lemma reach_dependencies_add h self task x y :
  reach (dependencies_add h self task) x y →
  reach h x y ∨
  (reach (dependencies_add h self task) x self ∧
   reach (dependencies_add h self task) self y).
Proof.
  induction 1 as [x|x z y Hxz Hzy IH]; [left; apply rtc_refl|].
  destruct (decide (self = x)) as [->|Hne].
  { right. split; [apply rtc_refl|]. by eapply rtc_l. }
  unfold dep_edge in Hxz.
  rewrite deps_of_dependencies_add, decide_False in Hxz by done.
  destruct IH as [IH|[IH1 IH2]].
  - left. by eapply rtc_l.
  - right. split; [|done]. eapply rtc_l; [|exact IH1].
    unfold dep_edge. by rewrite deps_of_dependencies_add, decide_False.
Qed.

Lemma add_dependency_acyclic h self task :
  acyclic h → acyclic (add_dependency h self task).
Proof.
  intros Hacyc.
  destruct (validate_dependencies (dependencies_add h self task) self) eqn:E.
  - rewrite add_dependency_accepted by done.
    set (h1 := dependencies_add h self task) in *.
    destruct (validate_dependencies_true h1 self) as [[Htree _] _].
    apply Htree in E. clear Htree.
    assert (Hself : ∀ e, e ∈ deps_of h1 self → ¬ reach h1 e self).
    { by apply (E self (rtc_refl _ _)). }
    intros x y Hxy Hyx.
    destruct (decide (self = x)) as [<-|Hne]; [by apply (Hself y)|].
    assert (Hxy' : y ∈ deps_of h x).
    { unfold h1 in Hxy.
      by rewrite deps_of_dependencies_add, decide_False in Hxy. }
    destruct (reach_dependencies_add _ _ _ _ _ Hyx) as [Hold|[Hys Hsx]].
    { by apply (Hacyc x y). }
    apply reach_inv in Hsx as [->|(e & He & Hex)]; [done|].
    apply (Hself e He). etrans; [exact Hex|]. by eapply rtc_l.
  - intros x y Hxy Hyx.
    assert (Hsub : ∀ a, deps_of (add_dependency h self task) a ⊆ deps_of h a).
    { intros a. rewrite deps_of_add_dependency, E.
      destruct (decide (self = a)) as [->|]; set_solver. }
    apply (Hacyc x y); [by apply Hsub|]. by eapply reach_mono.
Qed.

Lemma exec_op_deps_of h (op : entity_op) r :
  deps_of (exec_op h op) r =
  match op with
  | OpAddDependency self task => deps_of (add_dependency h self task) r
  | _ => deps_of h r
  end.
Proof.
  destruct op as [self task|self|self|self|self|self p|self a]; try done;
    unfold deps_of; rewrite exec_op_lookup; simpl;
    (destruct (decide (self = r)) as [->|]; [|done]);
    destruct (h !! r); try done; simpl;
    try destruct (can_start _ _); try destruct (can_complete _ _); done.
Qed.

Lemma exec_op_acyclic h (op : entity_op) :
  acyclic h → acyclic (exec_op h op).
Proof.
  intros Hacyc.
  destruct op as [self task|self|self|self|self|self p|self a];
    try (by apply add_dependency_acyclic);
    (intros x y Hxy Hyx; apply (Hacyc x y);
     [by rewrite exec_op_deps_of in Hxy|];
     eapply reach_mono; [|exact Hyx];
     intros a0; by rewrite exec_op_deps_of).
Qed.

(** X6: No sequence of entity operations closes a dependency cycle: a store in
    which no task is its own descendant stays so.  A store of freshly
    constructed tasks is such a store. *)
Theorem exec_ops_acyclic h (ops : list entity_op) :
  acyclic h → acyclic (exec_ops h ops).
Proof.
  revert h. induction ops as [|op ops IH]; intros h Hacyc; [done|].
  simpl. by apply IH, exec_op_acyclic.
Qed.

Lemma no_dependencies_acyclic h :
  (∀ r, deps_of h r = ∅) → acyclic h.
Proof. intros He x y Hxy. rewrite He in Hxy. set_solver. Qed.

Lemma exec_ops_acyclic_witness :
  acyclic three_tasks ∧
  acyclic (exec_ops three_tasks
             [OpAddDependency 0 1; OpAddDependency 1 2; OpAddDependency 2 0]).
Proof.
  assert (H : acyclic three_tasks).
  { apply no_dependencies_acyclic. intros r. unfold deps_of, three_tasks.
    destruct (decide (r = 0)) as [->|]; [done|].
    rewrite lookup_insert_ne by done.
    destruct (decide (r = 1)) as [->|]; [done|].
    rewrite lookup_insert_ne by done.
    destruct (decide (r = 2)) as [->|]; [done|].
    by rewrite lookup_singleton_ne. }
  split; [exact H|]. by apply exec_ops_acyclic.
Defined.

End MoreDependencies.

Section AcceptedGraphs.

Local Close Scope string_scope.

Implicit Types (h : heap) (self task r : ref).

Lemma reach_no_dependencies h x y :
  deps_of h x = ∅ → reach h x y → x = y.
Proof.
  intros He Hxy. apply reach_inv in Hxy as [->|(e & He' & _)]; [done|].
  rewrite He in He'. set_solver.
Qed.

Lemma validate_dependencies_tree_like h self :
  validate_dependencies h self = true ↔ tree_like h self.
Proof. apply validate_dependencies_true. Qed.

(** X7: [validate_dependencies] accepts exactly the tasks below which the
    dependencies form a tree: no task below is its own descendant, and no
    two distinct dependencies of one task share a descendant.  A task
    without dependencies is always accepted. *)
Theorem validate_dependencies_accepts_trees h self :
  (validate_dependencies h self = true ↔ tree_like h self) ∧
  (deps_of h self = ∅ → validate_dependencies h self = true).
Proof.
  pose proof (validate_dependencies_tree_like h self) as Htree.
  split; [exact Htree|]. intros He. apply Htree. intros u Hu.
  apply (reach_no_dependencies _ _ _ He) in Hu as <-.
  rewrite He. split; set_solver.
Qed.

(** From a descendant of [task], when [self] is none, the new edge out of
    [self] is never met. *)
Lemma reach_dependencies_add_below h self task a b :
  ¬ reach h task self → reach h task a →
  reach (dependencies_add h self task) a b → reach h a b.
Proof.
  intros Hts Hta Hab. revert Hta.
  induction Hab as [a|a c b Hac _ IH]; intros Hta; [apply rtc_refl|].
  assert (self ≠ a) as Hne by (intros ->; done).
  unfold dep_edge in Hac.
  rewrite deps_of_dependencies_add, decide_False in Hac by done.
  eapply rtc_l; [exact Hac|]. apply IH. by eapply rtc_r.
Qed.

(** From anywhere, a path of the store with the new edge is an old path, or
    an old path to [self] followed by an old path out of [task]. *)
Lemma reach_dependencies_add_through h self task a b :
  ¬ reach h task self →
  reach (dependencies_add h self task) a b →
  reach h a b ∨ (reach h a self ∧ reach h task b).
Proof.
  intros Hts. induction 1 as [a|a c b Hac Hcb IH]; [left; apply rtc_refl|].
  unfold dep_edge in Hac. rewrite deps_of_dependencies_add in Hac.
  destruct (decide (self = a)) as [<-|Hne].
  - destruct (h !! self) as [t|] eqn:Ht; [|set_solver].
    apply elem_of_union in Hac as [Hac|Hac].
    + apply elem_of_singleton in Hac as ->. right.
      split; [apply rtc_refl|].
      eapply reach_dependencies_add_below; [done|apply rtc_refl|done].
    + assert (c ∈ deps_of h self) as Hc by (unfold deps_of; by rewrite Ht).
      destruct IH as [IH|[IH1 IH2]].
      * left. by eapply rtc_l.
      * right. split; [apply rtc_refl|done].
  - destruct IH as [IH|[IH1 IH2]].
    + left. by eapply rtc_l.
    + right. split; [by eapply rtc_l|done].
Qed.

Lemma tree_like_dependencies_add h self task :
  tree_like h self → tree_like h task →
  (∀ d, reach h self d → ¬ reach h task d) →
  tree_like (dependencies_add h self task) self.
Proof.
  intros Hself Htask Hdisj.
  assert (Hts : ¬ reach h task self).
  { apply Hdisj, rtc_refl. }
  set (h1 := dependencies_add h self task).
  (* the dependencies of a task, old and new *)
  assert (Hdeps : ∀ u x, x ∈ deps_of h1 u →
            x ∈ deps_of h u ∨ (u = self ∧ x = task)).
  { intros u x Hx. unfold h1 in Hx. rewrite deps_of_dependencies_add in Hx.
    destruct (decide (self = u)) as [<-|]; [|by left].
    unfold deps_of. destruct (h !! self); [|set_solver].
    apply elem_of_union in Hx as [Hx|Hx]; [|by left].
    apply elem_of_singleton in Hx. by right. }
  (* below [task] nothing changed *)
  assert (Hbelow : ∀ u, reach h task u →
            (∀ e, e ∈ deps_of h1 u → ¬ reach h1 e u) ∧
            (∀ x y d, x ∈ deps_of h1 u → y ∈ deps_of h1 u → x ≠ y →
                      reach h1 x d → ¬ reach h1 y d)).
  { intros u Hu. destruct (Htask u Hu) as [Hc Hd].
    assert (Hold : ∀ x, x ∈ deps_of h1 u → x ∈ deps_of h u).
    { intros x Hx. destruct (Hdeps u x Hx) as [?|[-> _]]; done. }
    assert (Hpath : ∀ x d, x ∈ deps_of h1 u → reach h1 x d → reach h x d).
    { intros x d Hx. apply reach_dependencies_add_below; [done|].
      eapply rtc_r; [exact Hu|]. by apply Hold. }
    split.
    - intros e He Heu. apply (Hc e); [by apply Hold|by apply Hpath].
    - intros x y d Hx Hy Hxy Hxd Hyd.
      apply (Hd x y d); auto. }
  intros u Hu.
  apply reach_dependencies_add_through in Hu as [Hu|[_ Hu]];
    [|by apply Hbelow|done].
  destruct (Hself u Hu) as [Hc Hd].
  (* a path out of a dependency of [u] *)
  assert (Hout : ∀ x d, x ∈ deps_of h1 u → reach h1 x d →
            (x ∈ deps_of h u ∧ reach h x d ∧ reach h self d) ∨
            (x ∈ deps_of h u ∧ reach h x self) ∨
            (u = self ∧ x = task ∧ reach h task d)).
  { intros x d Hx Hxd. destruct (Hdeps u x Hx) as [Hx'|[-> ->]].
    - apply reach_dependencies_add_through in Hxd as [Hxd|[Hxs _]];
        [|by right; left|done].
      left. split; [done|]. split; [done|].
      etrans; [exact Hu|]. by eapply rtc_l.
    - right. right. split; [done|]. split; [done|].
      eapply reach_dependencies_add_below; [done|apply rtc_refl|done]. }
  (* no dependency of [u] leads back to [self] *)
  assert (Hback : ∀ x, x ∈ deps_of h u → ¬ reach h x self).
  { intros x Hx Hxs.
    apply reach_inv in Hu as [<-|(e & He & Heu)]; [by apply (Hc x)|].
    destruct (Hself self (rtc_refl _ _)) as [Hcs _].
    apply (Hcs e He). etrans; [exact Heu|]. by eapply rtc_l. }
  split.
  - intros e He Heu.
    destruct (Hout e u He Heu) as [(He' & Hpath & _)|[(He' & Hes)|(-> & -> & Hpath)]].
    + by apply (Hc e).
    + by apply (Hback e).
    + done.
  - intros x y d Hx Hy Hxy Hxd Hyd.
    destruct (Hout x d Hx Hxd) as [(Hx' & Hpx & Hsx)|[(Hx' & Hxs)|(-> & -> & Hpx)]];
      [| by apply (Hback x) |].
    + destruct (Hout y d Hy Hyd) as [(Hy' & Hpy & _)|[(Hy' & Hys)|(_ & -> & Hpy)]].
      * by apply (Hd x y d).
      * by apply (Hback y).
      * by apply (Hdisj d).
    + destruct (Hout y d Hy Hyd) as [(Hy' & Hpy & Hsy)|[(Hy' & Hys)|(_ & -> & _)]].
      * by apply (Hdisj d).
      * by apply (Hback y).
      * done.
Qed.

(** X8: When [self] and [task] each pass the validation and no task is below
    both, [self.add_dependency(task)] goes through: [task] joins the
    dependencies of [self]. *)
Theorem add_dependency_disjoint_accepted h self task (t : Task) :
  h !! self = Some t →
  validate_dependencies h self = true →
  validate_dependencies h task = true →
  (∀ d, reach h self d → ¬ reach h task d) →
  validate_dependencies (dependencies_add h self task) self = true ∧
  deps_of (add_dependency h self task) self = {[task]} ∪ dependencies t.
Proof.
  intros Ht Hself Htask Hdisj.
  apply validate_dependencies_tree_like in Hself, Htask.
  assert (Hacc :
    validate_dependencies (dependencies_add h self task) self = true).
  { apply validate_dependencies_tree_like.
    by apply tree_like_dependencies_add. }
  split; [done|].
  rewrite add_dependency_accepted by done.
  by rewrite deps_of_dependencies_add, decide_True, Ht.
Qed.

Lemma add_dependency_disjoint_accepted_witness :
  validate_dependencies (dependencies_add three_tasks 0 1) 0 = true ∧
  deps_of (add_dependency three_tasks 0 1) 0 = {[1]} ∪ ∅.
Proof.
  apply (add_dependency_disjoint_accepted three_tasks 0 1
           (fresh_task "1" "Task 1")).
  - vm_compute. reflexivity.
  - vm_compute. reflexivity.
  - vm_compute. reflexivity.
  - intros d H0 H1.
    apply reach_no_dependencies in H0; [|by vm_compute].
    apply reach_no_dependencies in H1; [|by vm_compute].
    congruence.
Defined.

End AcceptedGraphs.

Section Lifecycle.

Local Close Scope string_scope.

Implicit Types (h : heap) (r : ref).

(** X9: A task as the constructor returns it has no dependency, no project and
    no assignee, and a cost of at least 1.  Put in the store, it cannot be
    started before it is assigned; once assigned it can, whatever the other
    tasks are; and once started it can be completed. *)
Theorem constructed_task_lifecycle h r
  (id title description cost : pyval) (s : Status) (tags : list Tag)
  (t : Task) (a : Agent) :
  Task_init id title description cost s tags = Val t →
  let h0 := <[r := t]> h in
  let h1 := assign h0 r a in
  let h2 := snd (start_task h1 r) in
  (cost = VInt (Entities.cost t) ∧ (1 ≤ Entities.cost t)%Z ∧
   dependencies t = ∅ ∧ assignee t = None ∧ project t = None ∧
   status t = s) ∧
  start_task h0 r = (false, h0) ∧
  fst (start_task h1 r) = true ∧
  status_of h2 r = Some IN_PROGRESS ∧
  fst (complete_task h2 r) = true ∧
  status_of (snd (complete_task h2 r)) r = Some DONE.
Proof.
  intros Hinit h0 h1 h2. unfold Task_init in Hinit.
  destruct cost as [|c| | | |]; try done.
  destruct (Z.ltb_spec c 1) as [|Hc]; [done|]. injection Hinit as <-.
  simpl. split; [done|].
  assert (H0 : start_task h0 r = (false, h0)).
  { unfold start_task, can_start, h0. by rewrite lookup_insert_eq. }
  assert (Hcs : can_start h1 r = true).
  { unfold can_start, h1, assign, h0.
    rewrite lookup_alter_eq, lookup_insert_eq. cbn [fmap option_fmap option_map].
    unfold set_assignee. cbn [assignee dependencies].
    rewrite (bool_decide_eq_true_2 (Some a ≠ None)) by done.
    by rewrite (bool_decide_eq_true_2 (∅ = ∅)). }
  assert (H1 : start_task h1 r = (true, alter (set_status IN_PROGRESS) r h1)).
  { unfold start_task. by rewrite Hcs. }
  assert (H2 : status_of h2 r = Some IN_PROGRESS).
  { unfold h2. rewrite H1. simpl. unfold status_of, h1, assign, h0.
    by rewrite !lookup_alter_eq, lookup_insert_eq. }
  assert (Hcc : can_complete h2 r = true).
  { unfold can_complete. by rewrite H2. }
  split; [done|]. split; [by rewrite H1|]. split; [done|].
  unfold complete_task. rewrite Hcc. simpl. split; [done|].
  by rewrite (status_of_alter_set_status_cases _ _ _ _ _ H2), decide_True.
Qed.

Lemma constructed_task_lifecycle_witness :
  start_task one_task 0 = (false, one_task) ∧
  fst (start_task (assign one_task 0 agent_1) 0) = true.
Proof.
  destruct (constructed_task_lifecycle ∅ 0 (VStr "1") (VStr "Task 1")
              (VStr "") (VInt 1) TODO [] (fresh_task "1" "Task 1") agent_1
              eq_refl) as (_ & H0 & H1 & _).
  split; [exact H0|exact H1].
Defined.

End Lifecycle.

Section MoreMakespan.

Local Close Scope string_scope.
Local Open Scope Z_scope.

Lemma foldr_Zadd_lower (l : list Z) :
  Forall (λ c, 1 ≤ c) l →
  Z.of_nat (length l) ≤ foldr Z.add 0 l ∧
  ∀ c, c ∈ l → c ≤ foldr Z.add 0 l.
Proof.
  induction 1 as [|x l Hx _ [IH1 IH2]]; simpl.
  - split; [lia|]. intros c Hc. by apply elem_of_nil in Hc.
  - split; [lia|]. intros c Hc.
    apply elem_of_cons in Hc as [->|Hc]; [lia|].
    specialize (IH2 c Hc). lia.
Qed.

(** X10: For tasks whose costs are at least 1, as the constructor ensures, the
    two bounds of a non-empty list are in order: the minimum makespan is at
    least 1 and at most the maximum, and the maximum is at least the number
    of tasks. *)
Theorem get_makespan_boundaries_ordered (tasks : list Task) :
  tasks ≠ [] →
  Forall (λ t, 1 ≤ cost t) tasks →
  ∃ min_makespan max_makespan,
    get_makespan_boundaries tasks = Some (min_makespan, max_makespan) ∧
    1 ≤ min_makespan ≤ max_makespan ∧
    Z.of_nat (length tasks) ≤ max_makespan.
Proof.
  intros Hne Hcost.
  destruct (py_max_spec (map cost tasks)) as (m & Hm & Hin & Hall).
  { by destruct tasks. }
  assert (Hcosts : Forall (λ c, 1 ≤ c) (map cost tasks)).
  { apply Forall_fmap. exact Hcost. }
  destruct (foldr_Zadd_lower _ Hcosts) as [Hlen Hle].
  exists m, (foldr Z.add 0 (map cost tasks)). split; [|split; [split|]].
  - unfold get_makespan_boundaries. destruct tasks; [done|].
    by rewrite Hm, py_sum_foldr.
  - rewrite Forall_forall in Hcosts. by apply Hcosts.
  - by apply Hle.
  - by rewrite length_map in Hlen.
Qed.

Lemma get_makespan_boundaries_ordered_witness :
  ∃ min_makespan max_makespan,
    get_makespan_boundaries
      [fresh_task "1" "Task 1"; fresh_task "2" "Task 2"]
    = Some (min_makespan, max_makespan) ∧
    1 ≤ min_makespan ≤ max_makespan ∧ 2 ≤ max_makespan.
Proof.
  apply (get_makespan_boundaries_ordered
           [fresh_task "1" "Task 1"; fresh_task "2" "Task 2"]); [done|].
  repeat constructor; done.
Defined.

Lemma foldr_Zadd_perm (l l' : list Z) :
  l ≡ₚ l' → foldr Z.add 0 l = foldr Z.add 0 l'.
Proof. induction 1; simpl; lia. Qed.

(** X11: The bounds do not depend on the order of the tasks. *)
Theorem get_makespan_boundaries_permutation (tasks tasks' : list Task) :
  tasks ≡ₚ tasks' →
  get_makespan_boundaries tasks = get_makespan_boundaries tasks'.
Proof.
  intros Hperm.
  destruct tasks as [|t ts].
  { apply Permutation_nil_l in Hperm. by subst. }
  destruct tasks' as [|t' ts'].
  { by apply Permutation_nil_r in Hperm. }
  assert (Hcosts : map cost (t :: ts) ≡ₚ map cost (t' :: ts')).
  { by apply fmap_Permutation. }
  destruct (py_max_spec (map cost (t :: ts))) as (m & Hm & Hin & Hall);
    [done|].
  destruct (py_max_spec (map cost (t' :: ts'))) as (m' & Hm' & Hin' & Hall');
    [done|].
  assert (m = m') as <-.
  { apply Z.le_antisymm.
    - apply Hall'. by rewrite <- Hcosts.
    - apply Hall. by rewrite Hcosts. }
  unfold get_makespan_boundaries. rewrite Hm, Hm', !py_sum_foldr.
  by rewrite (foldr_Zadd_perm _ _ Hcosts).
Qed.

Lemma get_makespan_boundaries_permutation_witness :
  get_makespan_boundaries [fresh_task "1" "Task 1"; fresh_task "2" "Task 2"]
  = get_makespan_boundaries [fresh_task "2" "Task 2"; fresh_task "1" "Task 1"].
Proof.
  apply get_makespan_boundaries_permutation. apply Permutation_swap.
Defined.

End MoreMakespan.

Section MoreTally.

Local Close Scope string_scope.

Lemma filter_length_perm {A : Type} (P : A → Prop) `{!∀ x, Decision (P x)}
  (l l' : list A) :
  l ≡ₚ l' → length (filter P l) = length (filter P l').
Proof. intros Hperm. by rewrite Hperm. Qed.

(** X12: The tally does not depend on the order of the tasks, and the tally of
    two lists put end to end holds, for each status, the sum of the two
    counts. *)
Theorem track_statuses_order_and_append (tasks tasks' : list Task) :
  (tasks ≡ₚ tasks' → track_statuses tasks = track_statuses tasks') ∧
  (∀ s, default 0 (track_statuses (tasks ++ tasks') !! s)
        = default 0 (track_statuses tasks !! s)
          + default 0 (track_statuses tasks' !! s)).
Proof.
  assert (Hlookup : ∀ (l : list Task) s,
    default 0 (track_statuses l !! s)
    = length (filter (λ x, x = s) (map status l))).
  { intros l s. unfold track_statuses, Counter.
    rewrite lookup_fold_left_bump, lookup_empty.
    by destruct (length _). }
  assert (Hexact : ∀ (l : list Task) s,
    track_statuses l !! s =
    match length (filter (λ x, x = s) (map status l)) with
    | 0 => None
    | k => Some k
    end).
  { intros l s. unfold track_statuses, Counter.
    rewrite lookup_fold_left_bump, lookup_empty.
    by destruct (length _). }
  split.
  - intros Hperm. apply map_eq. intros s. rewrite !Hexact.
    by rewrite (filter_length_perm _ (map status tasks) (map status tasks'))
      by (by apply fmap_Permutation).
  - intros s. rewrite !Hlookup, map_app, filter_app, length_app. done.
Qed.

End MoreTally.

Section EnumNames.

(** X13: Looking a member up by its own name gives the member back, and a name
    that a lookup accepts is the name of the member found: for [Tag] and
    for [Status]. *)
Theorem enum_name_lookup_round_trip :
  (∀ t, Tag_lookup (Tag_name t) = Some t) ∧
  (∀ name t, Tag_lookup name = Some t → Tag_name t = name) ∧
  (∀ s, Status_lookup (Status_name s) = Some s) ∧
  (∀ name s, Status_lookup name = Some s → Status_name s = name).
Proof.
  split; [by intros []|]. split; [|split; [by intros []|]].
  - intros name t. unfold Tag_lookup.
    destruct (String.eqb_spec name "HIGH_PRIORITY") as [->|_];
      [by intros [= <-]|].
    destruct (String.eqb_spec name "MEDIUM_PRIORITY") as [->|_];
      [by intros [= <-]|].
    destruct (String.eqb_spec name "LOW_PRIORITY") as [->|_];
      [by intros [= <-]|done].
  - intros name s. unfold Status_lookup.
    destruct (String.eqb_spec name "TODO") as [->|_]; [by intros [= <-]|].
    destruct (String.eqb_spec name "IN_PROGRESS") as [->|_];
      [by intros [= <-]|].
    destruct (String.eqb_spec name "DONE") as [->|_]; [by intros [= <-]|done].
Qed.

End EnumNames.

(** * Further facts about the use cases *)

Section UseCaseOutcomes.

Import UseCases.

Context {W : Type}.

Implicit Types (w : W) (e : exn).

Lemma ensures_ret {A : Type} (a : A) (P : A → Prop) :
  P a → ensures (W:=W) (ret a) P.
Proof. intros Ha w a' w' [= <- _]. exact Ha. Qed.

Lemma ensures_bind {A B : Type} (m : M W A) (k : A → M W B)
  (Q : A → Prop) (P : B → Prop) :
  ensures m Q → (∀ a, Q a → ensures (k a) P) → ensures (bind m k) P.
Proof.
  intros Hm Hk w b w'. unfold bind.
  destruct (m w) as [[a|e] w1] eqn:E; [|done].
  apply Hk. by eapply Hm.
Qed.

Lemma ensures_True {A : Type} (m : M W A) : ensures m (λ _, True).
Proof. by intros w a w' _. Qed.

Lemma ensures_try_except {A : Type} (body : M W A) clauses (P : A → Prop) :
  ensures body P → (∀ e, ensures (handle clauses e) P) →
  ensures (try_except body clauses) P.
Proof.
  intros Hb Hh w a w'. unfold try_except.
  destruct (body w) as [[a'|e] w1] eqn:E.
  - intros [= <- _]. by eapply Hb.
  - apply Hh.
Qed.

Lemma ensures_try_except_ret {A : Type} (a : A) clauses (P : A → Prop) :
  P a → ensures (W:=W) (try_except (ret a) clauses) P.
Proof. intros Ha w a' w' [= <- _]. exact Ha. Qed.

Lemma ensures_handle_one {A : Type} c (k : exn → M W A) e (P : A → Prop) :
  (∀ e', ensures (k e') P) → ensures (handle [(c, k)] e) P.
Proof. intros Hk. simpl. destruct (isinstance e c); [apply Hk|done]. Qed.

Lemma ensures_handle_two {A : Type} c1 c2 (k1 k2 : exn → M W A) e
  (P : A → Prop) :
  (∀ e', ensures (k1 e') P) → (∀ e', ensures (k2 e') P) →
  ensures (handle [(c1, k1); (c2, k2)] e) P.
Proof.
  intros H1 H2. simpl. destruct (isinstance e c1); [apply H1|].
  destruct (isinstance e c2); [apply H2|done].
Qed.

Lemma failed_with_intro (prefix msg : string) :
  failed_with prefix (Failure (prefix ++ msg)).
Proof. by exists msg. Qed.

Lemma ensures_report {A : Type} (prefix : string) (wrap : Result → A) e
  (P : A → Prop) :
  (∀ text, P (wrap (Failure (prefix ++ text)))) →
  ensures (W:=W)
    (bind (lift (py_str e)) (λ text, ret (wrap (Failure (prefix ++ text)))))
    P.
Proof.
  intros HP. eapply ensures_bind; [apply ensures_True|].
  intros text _. apply ensures_ret, HP.
Qed.

(** X14: Whatever a use case returns is a success or a failure of one of
    the kinds its handlers spell out.  [create_task]: an enterprise rule
    violation, an unexpected enterprise error or an adapter error.
    [create_agent]: nothing but an adapter error.  [get_task] and
    [get_agent]: not found, or an adapter error.  [assign_task]: task not
    found, agent not found, or an adapter error, which is also how a cost
    below 1 in a stored record is reported. *)
Theorem use_case_failures_classified (task_repo agent_repo : Repository W) :
  (∀ title description cost tags,
     ensures (create_task task_repo title description cost tags)
       (λ r, succeeded r ∨ failed_with "Enterprise rule violation: " r ∨
             failed_with "Unexpected enterprise error: " r ∨
             failed_with "Unexpected adapter error: " r)) ∧
  (∀ name,
     ensures (create_agent agent_repo name)
       (λ r, succeeded r ∨ failed_with "Unexpected adapter error: " r)) ∧
  (∀ task_id,
     ensures (get_task task_repo task_id)
       (λ r, succeeded r ∨ r = Failure "Task not found" ∨
             failed_with "Unexpected adapter error: " r)) ∧
  (∀ agent_id,
     ensures (get_agent agent_repo agent_id)
       (λ r, succeeded r ∨ r = Failure "Agent not found" ∨
             failed_with "Unexpected adapter error: " r)) ∧
  (∀ task_id agent_id,
     ensures (assign_task task_repo agent_repo task_id agent_id)
       (λ r, succeeded r ∨ r = Failure "Task not found" ∨
             r = Failure "Agent not found" ∨
             failed_with "Unexpected adapter error: " r)).
Proof.
  split; [|split; [|split; [|split]]].
  - intros.
    match goal with |- ensures _ ?P => set (Q := P) end.
    unfold create_task.
    apply ensures_bind with (Q := flow_ok Q).
    { apply ensures_try_except.
      - eapply ensures_bind; [apply ensures_True|].
        intros task _. by apply ensures_ret.
      - intros e. apply ensures_handle_two; intros e';
          apply (ensures_report _ (Returned _)); intros text;
          unfold Q; simpl; eauto using failed_with_intro. }
    intros [task|r] Hr; [|by apply ensures_ret].
    apply ensures_bind with (Q := flow_ok Q).
    { apply ensures_try_except.
      - eapply ensures_bind; [apply ensures_True|].
        intros record _. by apply ensures_ret.
      - intros e. apply ensures_handle_one; intros e';
          apply (ensures_report _ (Returned _)); intros text;
          unfold Q; simpl; eauto 6 using failed_with_intro. }
    intros [record|r] Hr'; apply ensures_ret; [|done].
    left. by eexists.
  - intros.
    match goal with |- ensures _ ?P => set (Q := P) end.
    unfold create_agent.
    apply ensures_bind with (Q := flow_ok Q).
    { by apply ensures_try_except_ret. }
    intros [agent|r] Hr; [|by apply ensures_ret].
    apply ensures_bind with (Q := flow_ok Q).
    { apply ensures_try_except.
      - eapply ensures_bind; [apply ensures_True|].
        intros record _. by apply ensures_ret.
      - intros e. apply ensures_handle_one; intros e';
          apply (ensures_report _ (Returned _)); intros text;
          unfold Q; simpl; eauto using failed_with_intro. }
    intros [record|r] Hr'; apply ensures_ret; [|done].
    left. by eexists.
  - intros. unfold get_task. apply ensures_try_except.
    + eapply ensures_bind; [apply ensures_True|]. intros task _.
      destruct (is_None task); apply ensures_ret; [by auto|].
      left. by eexists.
    + intros e. apply ensures_handle_one; intros e'.
      apply (ensures_report _ id). intros text. simpl.
      eauto using failed_with_intro.
  - intros. unfold get_agent. apply ensures_try_except.
    + eapply ensures_bind; [apply ensures_True|]. intros agent _.
      destruct (is_None agent); apply ensures_ret; [by auto|].
      left. by eexists.
    + intros e. apply ensures_handle_one; intros e'.
      apply (ensures_report _ id). intros text. simpl.
      eauto using failed_with_intro.
  - intros. unfold assign_task. apply ensures_try_except.
    + eapply ensures_bind; [apply ensures_True|]. intros task _.
      destruct (is_None task); [apply ensures_ret; by auto|].
      eapply ensures_bind; [apply ensures_True|]. intros agent _.
      destruct (is_None agent); [apply ensures_ret; by auto|].
      repeat (eapply ensures_bind; [apply ensures_True|]; intros ? _).
      apply ensures_ret. left. by eexists.
    + intros e. apply ensures_handle_one; intros e'.
      apply (ensures_report _ id). intros text. simpl.
      eauto 6 using failed_with_intro.
Qed.

End UseCaseOutcomes.

Section UseCasePaths.

Import UseCases.

Context {W : Type}.

Lemma comprehension_known_tags_names (tags : list string) :
  Forall (λ name, name ∈ tag_names) tags →
  ∃ tags', comprehension Tag_getitem (map VStr tags) = Val tags' ∧
           map Tag_name tags' = tags.
Proof.
  induction 1 as [|name tags Hname _ IH]; simpl; [by exists []|].
  apply Tag_lookup_Some in Hname as [t Ht]. rewrite Ht. simpl.
  destruct IH as (tags' & -> & Hnames). simpl.
  exists (t :: tags'). split; [done|]. simpl. f_equal; [|done].
  revert Ht. unfold Tag_lookup.
  destruct (String.eqb_spec name "HIGH_PRIORITY") as [->|_];
    [by intros [= <-]|].
  destruct (String.eqb_spec name "MEDIUM_PRIORITY") as [->|_];
    [by intros [= <-]|].
  destruct (String.eqb_spec name "LOW_PRIORITY") as [->|_];
    [by intros [= <-]|done].
Qed.

Lemma map_VStr_Tag_name (tags' : list Tag) :
  map (λ t, VStr (Tag_name t)) tags' = map VStr (map Tag_name tags').
Proof. by rewrite map_map. Qed.

Lemma create_task_valid_inputs (repository : Repository W)
  (title description : pyval) (cost : Z) (tags : list string) (w : W) :
  (1 ≤ cost)%Z →
  Forall (λ name, name ∈ tag_names) tags →
  create_task repository title description cost tags w =
  adapter_outcome
    (repo_add repository (new_task_record title description cost tags) w).
Proof.
  intros Hcost Htags.
  destruct (comprehension_known_tags_names tags Htags) as (tags' & Hc & Hn).
  unfold create_task, bind, try_except, lift. rewrite Hc.
  cbn [result_bind]. unfold Task_init.
  destruct (Z.ltb_spec cost 1) as [|_]; [lia|].
  cbn [ret Entities.title Entities.description Entities.cost Entities.tags
       Entities.status Status_name].
  rewrite map_VStr_Tag_name, Hn. fold (new_task_record title description cost tags).
  unfold adapter_outcome.
  destruct (repo_add repository _ w) as [[record|e] w']; [reflexivity|].
  cbn [handle]. destruct (isinstance e ExceptionC); [|reflexivity].
  by destruct (py_str e).
Qed.

Lemma assign_task_well_formed (task_repo agent_repo : Repository W)
  (task_id agent_id : string) (d a : list (string * pyval))
  (title name : pyval) (cost : Z) (tags : list string) (status : Status)
  (w w1 w2 : W) :
  repo_get task_repo task_id w = (Val (VDict d), w1) →
  repo_get agent_repo agent_id w1 = (Val (VDict a), w2) →
  dict_lookup "title" d = Some title →
  default (VInt 1) (dict_lookup "cost" d) = VInt cost →
  (1 ≤ cost)%Z →
  default (VList [VStr "LOW_PRIORITY"]) (dict_lookup "tags" d)
  = VList (map VStr tags) →
  Forall (λ tag, tag ∈ tag_names) tags →
  default (VStr "TODO") (dict_lookup "status" d)
  = VStr (Status_name status) →
  dict_lookup "name" a = Some name →
  assign_task task_repo agent_repo task_id agent_id w =
  adapter_outcome
    (repo_add task_repo
       (assigned_task_record task_id title
          (default (VStr "") (dict_lookup "description" d))
          cost tags status agent_id) w2).
Proof.
  intros Hget Hget' Htitle Hcost Hle Htags Hknown Hstatus Hname.
  destruct (comprehension_known_tags_names tags Hknown) as (tags' & Hc & Hn).
  assert (Hget_default : ∀ key dflt,
            py_get (VDict d) key dflt = Val (default dflt (dict_lookup key d))).
  { intros key dflt. unfold py_get. by destruct (dict_lookup key d). }
  assert (Hs : Status_getitem (VStr (Status_name status)) = Val status).
  { by destruct status. }
  unfold assign_task, try_except, bind, lift.
  rewrite Hget. cbn [is_None]. rewrite Hget'. cbn [is_None].
  unfold py_getitem at 1. rewrite Htitle.
  rewrite !Hget_default, Hcost, Htags, Hstatus, Hs.
  cbn [py_iter result_bind]. rewrite Hc. unfold Task_init.
  destruct (Z.ltb_spec cost 1) as [|_]; [lia|].
  unfold py_getitem. rewrite Hname.
  cbn [ret set_assignee Entities.task_id Entities.title Entities.description
       Entities.cost Entities.tags Entities.status Entities.agent_id].
  rewrite map_VStr_Tag_name, Hn.
  fold (assigned_task_record task_id title
          (default (VStr "") (dict_lookup "description" d))
          cost tags status agent_id).
  unfold adapter_outcome.
  destruct (repo_add task_repo _ w2) as [[record|e] w'].
  - reflexivity.
  - cbn [handle]. destruct (isinstance e ExceptionC); [|reflexivity].
    by destruct (py_str e).
Qed.

(** X15: With a cost of at least 1 and tag names that are all members of [Tag],
    [create_task] calls [repository.add] once, on the record made of the
    title, the description, the cost, the tag names as given and the status
    TODO.  When [add] returns, the result is [Success] of the record as
    [add] left it; when [add] raises an exception deriving from [Exception],
    it is the adapter failure carrying the exception's text; an exception
    deriving from [BaseException] alone propagates, and so does what [str]
    raises on an exception it cannot turn into text. *)
Theorem create_task_hands_record_to_repository (repository : Repository W)
  (title description : pyval) (cost : Z) (tags : list string) (w : W) :
  (1 ≤ cost)%Z →
  Forall (λ name, name ∈ tag_names) tags →
  create_task repository title description cost tags w =
  adapter_outcome
    (repo_add repository (new_task_record title description cost tags) w).
Proof. apply create_task_valid_inputs. Qed.

(** X16: [assign_task] on stored records that are well formed: the task record
    is a dict with a title, an integer cost of at least 1 (1 when absent),
    tag names that are members of [Tag] (LOW_PRIORITY alone when absent) and
    the name of a [Status] (TODO when absent); the agent record is a dict
    with a name.  Then [task_repo.add] is called once, on the record made of
    the given task id, the stored title, description (empty when absent),
    cost, tag names and status name, and the given agent id as assignee; the
    result is [Success] of that record as [add] left it, the adapter failure
    when [add] raises an exception deriving from [Exception], and the
    exception itself when it derives from [BaseException] alone (or what
    [str] raises on an exception it cannot turn into text). *)
Theorem assign_task_well_formed_records (task_repo agent_repo : Repository W)
  (task_id agent_id : string) (d a : list (string * pyval))
  (title name : pyval) (cost : Z) (tags : list string) (status : Status)
  (w w1 w2 : W) :
  repo_get task_repo task_id w = (Val (VDict d), w1) →
  repo_get agent_repo agent_id w1 = (Val (VDict a), w2) →
  dict_lookup "title" d = Some title →
  default (VInt 1) (dict_lookup "cost" d) = VInt cost →
  (1 ≤ cost)%Z →
  default (VList [VStr "LOW_PRIORITY"]) (dict_lookup "tags" d)
  = VList (map VStr tags) →
  Forall (λ tag, tag ∈ tag_names) tags →
  default (VStr "TODO") (dict_lookup "status" d)
  = VStr (Status_name status) →
  dict_lookup "name" a = Some name →
  assign_task task_repo agent_repo task_id agent_id w =
  adapter_outcome
    (repo_add task_repo
       (assigned_task_record task_id title
          (default (VStr "") (dict_lookup "description" d))
          cost tags status agent_id) w2).
Proof. apply assign_task_well_formed. Qed.

End UseCasePaths.

Section UseCasePathExamples.

Import UseCases.

Lemma create_task_hands_record_to_repository_witness :
  create_task abstract_repository (VStr "Test Task") (VStr "A test task") 5
    ["MEDIUM_PRIORITY"] tt
  = (Val (Failure "Unexpected adapter error: "), tt).
Proof.
  rewrite create_task_hands_record_to_repository; [reflexivity|lia|].
  apply Forall_cons. split; [|by apply Forall_nil].
  unfold tag_names. apply list_elem_of_further, list_elem_of_here.
Defined.

Lemma assign_task_well_formed_records_witness :
  let repo (v : pyval) : Repository unit :=
    mkRepository (λ r, ret r) (λ _, ret v) (ret []) in
  assign_task (repo (VDict [("title", VStr "t")]))
    (repo (VDict [("name", VStr "a")])) "7" "9" tt
  = (Val (Success
            (assigned_task_record "7" (VStr "t") (VStr "") 1
               ["LOW_PRIORITY"] TODO "9")), tt).
Proof.
  intros repo.
  rewrite (assign_task_well_formed_records
             (repo (VDict [("title", VStr "t")]))
             (repo (VDict [("name", VStr "a")])) "7" "9"
             [("title", VStr "t")] [("name", VStr "a")]
             (VStr "t") (VStr "a") 1 ["LOW_PRIORITY"] TODO tt tt tt);
    try reflexivity; try lia.
  apply Forall_cons. split; [|by apply Forall_nil].
  unfold tag_names. do 2 apply list_elem_of_further. apply list_elem_of_here.
Defined.

End UseCasePathExamples.

Section MemoryRepositories.

Import UseCases.

Local Open Scope list_scope.

Implicit Types (st : storage) (d : list (string * pyval)) (k : string)
  (v : pyval).

Lemma dict_lookup_set_eq k v d : dict_lookup k (dict_set k v d) = Some v.
Proof.
  induction d as [|[k' x] d IH]; simpl.
  - by rewrite String.eqb_refl.
  - destruct (String.eqb_spec k' k) as [->|Hne]; simpl.
    + by rewrite String.eqb_refl.
    + destruct (String.eqb_spec k' k); [done|exact IH].
Qed.

Lemma dict_lookup_set_ne k k' v d :
  k ≠ k' → dict_lookup k (dict_set k' v d) = dict_lookup k d.
Proof.
  intros Hne. induction d as [|[k0 x] d IH]; simpl.
  - destruct (String.eqb_spec k' k); [congruence|done].
  - destruct (String.eqb_spec k0 k') as [->|Hne0]; simpl.
    + destruct (String.eqb_spec k' k); [congruence|done].
    + destruct (String.eqb_spec k0 k); [done|exact IH].
Qed.

Lemma dict_set_fresh k v d :
  k ∉ map fst d → dict_set k v d = (d ++ [(k, v)])%list.
Proof.
  induction d as [|[k' x] d IH]; simpl; [done|]. intros Hk.
  destruct (String.eqb_spec k' k) as [->|Hne]; [set_solver|].
  rewrite IH; [done|set_solver].
Qed.


Lemma sequential_ids_fresh st :
  sequential_ids st → pretty (length st + 1)%nat ∉ map fst st.
Proof.
  unfold sequential_ids. intros -> Hin.
  apply list_elem_of_fmap in Hin as (n & Heq & Hn).
  apply (inj pretty) in Heq. subst n.
  apply elem_of_seq in Hn. lia.
Qed.


Lemma memory_add_dict id_key d st :
  memory_add id_key (VDict d) st =
  (Val (VDict (dict_set id_key (VStr (pretty (length st + 1)%nat)) d)),
   dict_set (pretty (length st + 1)%nat)
     (VDict (dict_set id_key (VStr (pretty (length st + 1)%nat)) d)) st).
Proof. reflexivity. Qed.

Lemma memory_get_set_eq k v st : memory_get k (dict_set k v st) = v.
Proof. unfold memory_get. by rewrite dict_lookup_set_eq. Qed.

Lemma memory_get_set_ne k k' v st :
  k ≠ k' → memory_get k (dict_set k' v st) = memory_get k st.
Proof. intros Hne. unfold memory_get. by rewrite dict_lookup_set_ne. Qed.



(** X19: What [create_task] stores on the in-memory repository, [get_task]
    reads back: with valid inputs the result is [Success] of the record with
    the next id in its [task_id] field, the agents' storage is untouched, and
    [get_task] of that id, right after, is [Success] of the same record. *)
Theorem create_task_then_get_task (title description : pyval) (cost : Z)
  (tags : list string) (w : storage * storage) :
  (1 ≤ cost)%Z →
  Forall (λ name, name ∈ tag_names) tags →
  let id := pretty (length (fst w) + 1)%nat in
  let record :=
    VDict [ ("title", title); ("description", description);
            ("cost", VInt cost); ("tags", VList (map VStr tags));
            ("status", VStr "TODO"); ("task_id", VStr id) ] in
  ∃ w',
    create_task MemoryTaskRepository title description cost tags w
    = (Val (Success record), w') ∧
    snd w' = snd w ∧
    get_task MemoryTaskRepository id w' = (Val (Success record), w').
Proof.
  intros Hcost Htags id record.
  rewrite create_task_valid_inputs by done.
  destruct w as [ts ags]. simpl in id. unfold new_task_record.
  cbn [repo_add MemoryTaskRepository fst snd]. rewrite memory_add_dict.
  fold id. change (dict_set "task_id" (VStr id) _) with
    [ ("title", title); ("description", description);
      ("cost", VInt cost); ("tags", VList (map VStr tags));
      ("status", VStr "TODO"); ("task_id", VStr id) ].
  fold record. eexists. split; [reflexivity|]. split; [reflexivity|].
  unfold get_task, try_except, bind.
  cbn [repo_get MemoryTaskRepository fst snd].
  rewrite memory_get_set_eq. reflexivity.
Qed.

Lemma create_task_then_get_task_witness :
  ∃ w',
    create_task MemoryTaskRepository (VStr "Test Task") (VStr "A test task")
      5 ["MEDIUM_PRIORITY"] ([], [])
    = (Val (Success
              (VDict [ ("title", VStr "Test Task");
                       ("description", VStr "A test task");
                       ("cost", VInt 5);
                       ("tags", VList [VStr "MEDIUM_PRIORITY"]);
                       ("status", VStr "TODO"); ("task_id", VStr "1") ])),
       w') ∧
    snd w' = [] ∧
    get_task MemoryTaskRepository "1" w'
    = (Val (Success
              (VDict [ ("title", VStr "Test Task");
                       ("description", VStr "A test task");
                       ("cost", VInt 5);
                       ("tags", VList [VStr "MEDIUM_PRIORITY"]);
                       ("status", VStr "TODO"); ("task_id", VStr "1") ])),
       w').
Proof.
  apply (create_task_then_get_task (VStr "Test Task") (VStr "A test task")
           5 ["MEDIUM_PRIORITY"] ([], [])); [lia|].
  apply Forall_cons. split; [|by apply Forall_nil].
  unfold tag_names. apply list_elem_of_further, list_elem_of_here.
Defined.

End MemoryRepositories.

Section MemoryAssign.

Import UseCases.

Local Open Scope list_scope.

Implicit Types (ts ags : storage).

Lemma create_task_memory (title description : pyval) (cost : Z)
  (tags : list string) ts ags :
  (1 ≤ cost)%Z →
  Forall (λ name, name ∈ tag_names) tags →
  let id := pretty (length ts + 1)%nat in
  let record :=
    VDict [ ("title", title); ("description", description);
            ("cost", VInt cost); ("tags", VList (map VStr tags));
            ("status", VStr "TODO"); ("task_id", VStr id) ] in
  create_task MemoryTaskRepository title description cost tags (ts, ags)
  = (Val (Success record), (dict_set id record ts, ags)).
Proof.
  intros Hcost Htags id record.
  rewrite create_task_valid_inputs by done. reflexivity.
Qed.

Lemma create_agent_memory (name : pyval) ts ags :
  let id := pretty (length ags + 1)%nat in
  let record := VDict [ ("name", name); ("agent_id", VStr id) ] in
  create_agent MemoryAgentRepository name (ts, ags)
  = (Val (Success record), (ts, dict_set id record ags)).
Proof. reflexivity. Qed.

(** X20: On the in-memory repositories, [assign_task] does not replace the
    stored task.  After [create_task] and [create_agent] on storages filled
    by [add] alone, [assign_task] with the two new ids succeeds; the record
    it returns carries the agent's id as assignee and the task's title,
    description, cost, tags and status, but a [task_id] one higher than the
    task's; that record is stored under the higher id, and the task's own id
    still gives the record without an assignee. *)
Theorem assign_task_memory_stores_a_copy (title description name : pyval)
  (cost : Z) (tags : list string) ts ags :
  (1 ≤ cost)%Z →
  Forall (λ tag, tag ∈ tag_names) tags →
  sequential_ids ts →
  let task_id := pretty (length ts + 1)%nat in
  let agent_id := pretty (length ags + 1)%nat in
  let new_id := pretty (length ts + 2)%nat in
  let w1 :=
    snd (create_task MemoryTaskRepository title description cost tags
           (ts, ags)) in
  let w2 := snd (create_agent MemoryAgentRepository name w1) in
  let stored :=
    VDict [ ("title", title); ("description", description);
            ("cost", VInt cost); ("tags", VList (map VStr tags));
            ("status", VStr "TODO"); ("task_id", VStr task_id) ] in
  let assigned :=
    assigned_task_record new_id title description cost tags TODO agent_id in
  new_id ≠ task_id ∧
  ∃ w3,
    assign_task MemoryTaskRepository MemoryAgentRepository task_id agent_id
      w2
    = (Val (Success assigned), w3) ∧
    get_task MemoryTaskRepository task_id w3 = (Val (Success stored), w3) ∧
    get_task MemoryTaskRepository new_id w3 = (Val (Success assigned), w3).
Proof.
  intros Hcost Htags Hseq task_id agent_id new_id w1 w2 stored assigned.
  assert (Hne : new_id ≠ task_id).
  { unfold new_id, task_id. intros Heq. apply (inj pretty) in Heq. lia. }
  split; [exact Hne|].
  assert (Hw1 : w1 = (ts ++ [(task_id, stored)], ags)).
  { unfold w1. rewrite create_task_memory by done. cbn [snd].
    fold task_id. fold stored. f_equal.
    apply dict_set_fresh. by apply sequential_ids_fresh. }
  set (agent := VDict [ ("name", name); ("agent_id", VStr agent_id) ]).
  assert (Hw2 : w2 = (ts ++ [(task_id, stored)],
                      dict_set agent_id agent ags)).
  { unfold w2. rewrite Hw1, create_agent_memory. reflexivity. }
  set (ts1 := ts ++ [(task_id, stored)]) in *.
  assert (Hlen : pretty (length ts1 + 1)%nat = new_id).
  { unfold ts1, new_id. rewrite length_app. simpl. f_equal. lia. }
  assert (Hstored : memory_get task_id ts1 = stored).
  { unfold ts1. rewrite <- (dict_set_fresh task_id stored ts)
      by (by apply sequential_ids_fresh).
    apply memory_get_set_eq. }
  rewrite Hw2.
  exists (dict_set new_id assigned ts1, dict_set agent_id agent ags).
  split; [|split].
  - unfold stored in Hstored.
    rewrite (assign_task_well_formed MemoryTaskRepository
               MemoryAgentRepository task_id agent_id
               [ ("title", title); ("description", description);
                 ("cost", VInt cost); ("tags", VList (map VStr tags));
                 ("status", VStr "TODO"); ("task_id", VStr task_id) ]
               [ ("name", name); ("agent_id", VStr agent_id) ]
               title name cost tags TODO
               (ts1, dict_set agent_id agent ags)
               (ts1, dict_set agent_id agent ags)
               (ts1, dict_set agent_id agent ags)); try done.
    + cbn [repo_add MemoryTaskRepository fst snd default dict_lookup
           String.eqb Ascii.eqb Bool.eqb].
      unfold assigned_task_record. rewrite memory_add_dict, Hlen.
      reflexivity.
    + cbn [repo_get MemoryTaskRepository fst snd]. by rewrite Hstored.
    + cbn [repo_get MemoryAgentRepository fst snd].
      by rewrite memory_get_set_eq.
  - unfold get_task, try_except, bind.
    cbn [repo_get MemoryTaskRepository fst snd].
    rewrite memory_get_set_ne by done. rewrite Hstored. reflexivity.
  - unfold get_task, try_except, bind.
    cbn [repo_get MemoryTaskRepository fst snd].
    rewrite memory_get_set_eq. reflexivity.
Qed.

Lemma assign_task_memory_stores_a_copy_witness :
  ∃ w3,
    assign_task MemoryTaskRepository MemoryAgentRepository "1" "1"
      (snd (create_agent MemoryAgentRepository (VStr "agent_123")
              (snd (create_task MemoryTaskRepository
                      (VStr "Assignable Task")
                      (VStr "A task to be assigned") 3 ["LOW_PRIORITY"]
                      ([], [])))))
    = (Val (Success
              (assigned_task_record "2" (VStr "Assignable Task")
                 (VStr "A task to be assigned") 3 ["LOW_PRIORITY"] TODO
                 "1")), w3) ∧
    get_task MemoryTaskRepository "1" w3
    = (Val (Success
              (VDict [ ("title", VStr "Assignable Task");
                       ("description", VStr "A task to be assigned");
                       ("cost", VInt 3);
                       ("tags", VList [VStr "LOW_PRIORITY"]);
                       ("status", VStr "TODO"); ("task_id", VStr "1") ])),
       w3) ∧
    get_task MemoryTaskRepository "2" w3
    = (Val (Success
              (assigned_task_record "2" (VStr "Assignable Task")
                 (VStr "A task to be assigned") 3 ["LOW_PRIORITY"] TODO
                 "1")), w3).
Proof.
  apply (assign_task_memory_stores_a_copy (VStr "Assignable Task")
           (VStr "A task to be assigned") (VStr "agent_123") 3
           ["LOW_PRIORITY"] [] []); [lia| |reflexivity].
  apply Forall_cons. split; [|by apply Forall_nil].
  unfold tag_names. do 2 apply list_elem_of_further. apply list_elem_of_here.
Defined.

End MemoryAssign.

Section AssignTaskRefusals.

Import UseCases.

Context {W : Type}.

(** X17: How [assign_task] refuses.  A task lookup that gives [None] ends the
    call with "Task not found" before the agent repository is asked; an
    agent lookup that gives [None] ends it with "Agent not found".  A stored
    task whose cost is an integer below 1, and which is well formed
    otherwise, is refused by the constructor, and the refusal is reported as
    an adapter error (not as an enterprise rule violation); nothing is
    written. *)
Theorem assign_task_refusals (task_repo agent_repo : Repository W)
  (task_id agent_id : string) (w w1 : W) :
  (repo_get task_repo task_id w = (Val VNone, w1) →
   assign_task task_repo agent_repo task_id agent_id w
   = (Val (Failure "Task not found"), w1)) ∧
  (∀ task w2,
     repo_get task_repo task_id w = (Val task, w1) → task ≠ VNone →
     repo_get agent_repo agent_id w1 = (Val VNone, w2) →
     assign_task task_repo agent_repo task_id agent_id w
     = (Val (Failure "Agent not found"), w2)) ∧
  (∀ d agent w2 title cost tags status,
     repo_get task_repo task_id w = (Val (VDict d), w1) →
     repo_get agent_repo agent_id w1 = (Val agent, w2) → agent ≠ VNone →
     dict_lookup "title" d = Some title →
     default (VInt 1) (dict_lookup "cost" d) = VInt cost → (cost < 1)%Z →
     default (VList [VStr "LOW_PRIORITY"]) (dict_lookup "tags" d)
     = VList (map VStr tags) →
     Forall (λ tag, tag ∈ tag_names) tags →
     default (VStr "TODO") (dict_lookup "status" d)
     = VStr (Status_name status) →
     assign_task task_repo agent_repo task_id agent_id w
     = (Val (Failure "Unexpected adapter error: Cost must be at least 1"),
        w2)).
Proof.
  split; [|split].
  - intros Hget. unfold assign_task, try_except, bind. by rewrite Hget.
  - intros task w2 Hget Htask Hget'.
    unfold assign_task, try_except, bind. rewrite Hget.
    destruct task; try done; cbn [is_None]; by rewrite Hget'.
  - intros d agent w2 title cost tags status Hget Hget' Hagent Htitle Hcost
      Hlt Htags Hknown Hstatus.
    destruct (comprehension_known_tags_names tags Hknown) as (tags' & Hc & _).
    assert (Hget_default : ∀ key dflt,
      py_get (VDict d) key dflt = Val (default dflt (dict_lookup key d))).
    { intros key dflt. unfold py_get. by destruct (dict_lookup key d). }
    assert (Hs : Status_getitem (VStr (Status_name status)) = Val status).
    { by destruct status. }
    unfold assign_task, try_except, bind, lift.
    rewrite Hget. cbn [is_None]. rewrite Hget'.
    assert (is_None agent = false) as -> by (by destruct agent).
    unfold py_getitem at 1. rewrite Htitle.
    rewrite !Hget_default, Hcost, Htags, Hstatus, Hs.
    cbn [py_iter result_bind]. rewrite Hc. unfold Task_init.
    destruct (Z.ltb_spec cost 1) as [_|]; [|lia]. reflexivity.
Qed.

End AssignTaskRefusals.

Section Readiness.

Local Close Scope string_scope.

Implicit Types (h : heap) (self r : ref).

Lemma exec_op_status_of h (op : entity_op) r :
  status_of (exec_op h op) r =
  match op with
  | OpStartTask self =>
      if decide (self = r) then
        if can_start h r then
          match status_of h r with Some _ => Some IN_PROGRESS | None => None end
        else status_of h r
      else status_of h r
  | OpCompleteTask self =>
      if decide (self = r) then
        if can_complete h r then
          match status_of h r with Some _ => Some DONE | None => None end
        else status_of h r
      else status_of h r
  | _ => status_of h r
  end.
Proof.
  unfold status_of. rewrite exec_op_lookup.
  destruct op as [self task|self|self|self|self|self p|self a]; simpl;
    (destruct (decide (self = r)) as [->|]; [|done]);
    destruct (h !! r); simpl; try done;
    try destruct (can_start _ _); try destruct (can_complete _ _); done.
Qed.

(** X21: A task that can start still can after any entity operation, two kinds
    apart: an [add_dependency] on the task itself, and a [start_task] on one
    of its dependencies (which takes a DONE dependency back to
    IN_PROGRESS). *)
Theorem can_start_preserved h (op : entity_op) self :
  can_start h self = true →
  (∀ task, op ≠ OpAddDependency self task) →
  (∀ r, op = OpStartTask r → r ∉ deps_of h self) →
  can_start (exec_op h op) self = true.
Proof.
  intros Hcs Hadd Hstart.
  destruct (h !! self) as [t|] eqn:Ht;
    [|by unfold can_start in Hcs; rewrite Ht in Hcs].
  destruct (can_start_true h self t Ht) as [Hready _].
  destruct (Hready Hcs) as [Hassignee Hdeps]. clear Hready.
  assert (Hdeps_of : deps_of h self = dependencies t).
  { unfold deps_of. by rewrite Ht. }
  (* the task after the operation *)
  assert (Hafter : ∃ t', exec_op h op !! self = Some t' ∧
            assignee t' ≠ None ∧ dependencies t' = dependencies t).
  { rewrite exec_op_lookup.
    destruct (decide (op_self op = self)) as [Hself|]; [|by eauto].
    rewrite Ht. eexists. split; [done|].
    destruct op as [s task|s|s|s|s|s p|s a]; simpl in *;
      try destruct (can_start _ _); try destruct (can_complete _ _);
      try done.
    subst s. by destruct (Hadd task). }
  destruct Hafter as (t' & Ht' & Hassignee' & Hdeps').
  apply (can_start_true _ _ _ Ht'). split; [done|].
  rewrite Hdeps'. destruct Hdeps as [He|Hdone]; [by left|]. right.
  intros dep Hdep. specialize (Hdone dep Hdep).
  rewrite exec_op_status_of.
  destruct op as [s task|s|s|s|s|s p|s a]; try done.
  - destruct (decide (s = dep)) as [->|]; [|done].
    exfalso. apply (Hstart dep eq_refl). by rewrite Hdeps_of.
  - destruct (decide (s = dep)) as [->|]; [|done].
    destruct (can_complete h dep); [|done]. by rewrite Hdone.
Qed.

Lemma can_start_preserved_witness :
  can_start (exec_op (assign one_task 0 agent_1) (OpCompleteTask 0)) 0
  = true.
Proof.
  apply can_start_preserved.
  - vm_compute. reflexivity.
  - intros task. discriminate.
  - intros r. discriminate.
Defined.

End Readiness.
